(** * gtest.py: the scheduler of [GTestManager]

    A shallow embedding of [GTestManager._schedule_tests] and
    [GTestManager._run_test] (src/gtest.py, lines 222-282), the part of the
    program that dispatches test cases over a pool of worker threads.

    The worker threads share the [GTestManager] object and the process; each
    thread runs [_schedule_tests].  The embedding is a machine with one
    program counter per worker and one shared store.  A step of a worker is
    one of the blocks of the source between which another thread may run: a
    [with self.LOCK] block is one step, and so is each statement outside a
    lock that reads or writes something shared.  Statements on locals only
    are folded into the step before them.  A schedule is the list of actions
    (which worker steps, with which exit code if the step is the return of a
    wait for the child process; which worker's next statement raises; the
    main thread's [INTERRUPT.set()]; the passing of time) and [exec] runs a
    schedule.

    The environment is in the schedule:
    - a step at a wait for the child process is the return of the wait: the
      schedule says when the process ends and with which exit code.  The
      worker waits at line 240, and also when it leaves the
      [with subprocess.Popen(...)] block of line 235 after line 237, where
      [Popen.__exit__] waits and the exit code is dropped (after line 240
      that second wait returns at once);
    - whether a statement raises is the schedule's choice where it depends
      on the file system, the platform or the interpreter: [mkdir],
      [os.chdir] and [open] ([OSError]: with a relative [--output] the
      [open] of line 234 looks for the directory of the case under itself
      and raises [FileNotFoundError] unless the file system has it),
      [send_signal(SIGINT)] ([ValueError] on Windows), and the recursive call
      of line 243 ([RecursionError] when the stack is full).  The exception
      leaves [_run_test] and [_schedule_tests]: the thread is over, and
      nobody reads the exception of its future (lines 318-322).

    What the embedding leaves out or fixes:
    - the recursive call of line 243 is followed by [return], so it is a
      jump back to the start of [_run_test] with the new tuple; a
      [RecursionError] is represented at that call only, not inside the
      calls of the deeper attempt;
    - paths are strings in POSIX syntax, joined as [os.path.join] does; the
      directories and the contents of the files are not represented, only
      the current directory and the paths that [open] was given;
    - [time.time()] is a clock in whole milliseconds, and line 246 is the
      difference of two readings: the rounding of the floating-point product
      is not represented;
    - [__progress] only prints. *)

From Stdlib Require Import ZArith Ascii String List Lia.
From stdpp Require Import base tactics option list numbers strings.

Local Open Scope string_scope.
Local Open Scope list_scope.
Local Open Scope Z_scope.

(** ** Data *)

(** The tuple [(test_name, cmd, working_dir, retry)] that [get_test_list]
    puts in [self._tests] (line 308). *)
Record test := mkTest {
  test_name : string;
  cmd : string;
  working_dir : string;
  retry : Z
}.

(** A line of [self.results], the frame with the columns
    ['Test', 'Status', 'Time', 'Log'] (line 184). *)
Record row := mkRow {
  Test : string;
  Status : string;
  Time : Z;
  Log : string
}.

(** [signal.SIGINT]. *)
Definition SIGINT : Z := 2.

(** [test_name.split('.')[0]]: the name up to its first dot, the whole name
    when it has none. *)
Fixpoint group_of (name : string) : string :=
  match name with
  | EmptyString => EmptyString
  | String c rest =>
      if Ascii.eqb c "."%char then EmptyString else String c (group_of rest)
  end.

(** [working_dir / 'run.log'] (line 230). *)
Definition log_of (t : test) : string := working_dir t +:+ "/run.log".

(** Line 247. *)
Definition status_of (ret : Z) : string :=
  if ret =? 0 then "Passed"
  else if ret =? - SIGINT then "Killed"
  else "Failed".

(** The condition of line 242. *)
Definition wants_retry (ret : Z) (t : test) (interrupted : bool) : bool :=
  negb (ret =? 0) && (0 <? retry t) && negb interrupted.

(** The tuple of the recursive call of line 243. *)
Definition retry_of (t : test) : test :=
  mkTest (test_name t) (cmd t) (working_dir t) (retry t - 1).

(** [int(1000 * (time.time() - start))]; the clock of the model counts
    milliseconds.  The real value is the truncation of a floating-point
    product and can be one less than the difference of the readings. *)
Definition run_time (now start : Z) : Z := now - start.

(** [Path.is_absolute()] on POSIX. *)
Definition is_absolute (p : string) : bool :=
  match p with
  | String c _ => Ascii.eqb c "/"%char
  | EmptyString => false
  end.

Fixpoint ends_with_slash (p : string) : bool :=
  match p with
  | EmptyString => false
  | String c EmptyString => Ascii.eqb c "/"%char
  | String _ rest => ends_with_slash rest
  end.

(** [os.path.join(d, p)]: where a process whose current directory is [d]
    looks for [p]. *)
Definition resolve (d p : string) : string :=
  if is_absolute p then p
  else match d with
       | EmptyString => p
       | _ => if ends_with_slash d then d +:+ p else d +:+ "/" +:+ p
       end.

(** [list.remove(x)]: deletes the first [x]; [None] is the [ValueError] of a
    list without [x]. *)
Fixpoint py_remove (x : string) (l : list string) : option (list string) :=
  match l with
  | [] => None
  | y :: l' => if decide (x = y) then Some l' else cons y <$> py_remove x l'
  end.

(** ** The scan of the queue (lines 266-272)

    [n] counts the iterations left of [for _ in range(self._tests.qsize())];
    [cand] is [test_candidate].  The result is the queue and [test_candidate]
    after the loop; [None] is the [IndexError] of [self._tests.queue[0]] on an
    empty queue. *)
Fixpoint scan_loop (n : nat) (q : list test) (running_groups : list string)
    (cand : option test) : option (list test * option test) :=
  match n with
  | O => Some (q, cand)
  | S n' =>
      match q with
      | [] => None
      | front :: rest =>
          if bool_decide (group_of (test_name front) ∉ running_groups)
          then Some (rest, Some front)
          else scan_loop n' q running_groups (Some front)
      end
  end.

Definition scan (q : list test) (running_groups : list string)
    : option (list test * option test) :=
  scan_loop (length q) q running_groups None.

(** ** The shared store *)

(** The fields of the [GTestManager] object that the workers use, the
    class-level [INTERRUPT] event, and what they share through the process:
    the current directory, the files and the clock. *)
Record shared := mkShared {
  tests : list test;             (* self._tests, front first *)
  running_tests : list string;   (* self._running_tests, front first *)
  finished : nat;                (* self._finished *)
  results : list row;            (* self.results, in row order *)
  INTERRUPT : bool;              (* GTestManager.INTERRUPT.is_set() *)
  cwd : string;                  (* os.getcwd() *)
  clock : Z;                     (* time.time(), in milliseconds *)
  opened : list string           (* the files that line 234 has opened, as
                                    the process found them, oldest first *)
}.

Definition set_tests (q : list test) (s : shared) : shared :=
  mkShared q (running_tests s) (finished s) (results s) (INTERRUPT s) (cwd s)
    (clock s) (opened s).
Definition set_running_tests (r : list string) (s : shared) : shared :=
  mkShared (tests s) r (finished s) (results s) (INTERRUPT s) (cwd s)
    (clock s) (opened s).
Definition set_cwd (d : string) (s : shared) : shared :=
  mkShared (tests s) (running_tests s) (finished s) (results s) (INTERRUPT s) d
    (clock s) (opened s).
Definition set_INTERRUPT (s : shared) : shared :=
  mkShared (tests s) (running_tests s) (finished s) (results s) true (cwd s)
    (clock s) (opened s).
Definition advance (d : nat) (s : shared) : shared :=
  mkShared (tests s) (running_tests s) (finished s) (results s) (INTERRUPT s) (cwd s)
    (clock s + Z.of_nat d) (opened s).
Definition add_opened (p : string) (s : shared) : shared :=
  mkShared (tests s) (running_tests s) (finished s) (results s) (INTERRUPT s) (cwd s)
    (clock s) (opened s ++ [p]).

(** The lock block of lines 249-253 on a store whose [_running_tests] has
    front [_] and rest [r]. *)
Definition record_result (r : list string) (line : row) (s : shared) : shared :=
  mkShared (tests s) r (S (finished s)) (results s ++ [line]) (INTERRUPT s) (cwd s)
    (clock s) (opened s).

(** ** A worker *)

(** The exceptions that can leave [_schedule_tests]. *)
Inductive error :=
| IndexError        (* [self._tests.queue[0]] on an empty queue, line 269 *)
| RemoveError       (* the [ValueError] of [remove], line 282 *)
| OSError           (* [mkdir], [os.chdir], [open]: lines 228-234 *)
| SignalError       (* the [ValueError] of [send_signal], line 237 *)
| RecursionError.   (* the call of line 243 *)

(** Where a worker stands.  The points inside [_run_test] carry the locals of
    its frame. *)
Inductive pc :=
| LoopTop                                   (* line 260 *)
| CheckEmpty                                (* line 263 *)
| Scan                                      (* lines 266-272 *)
| CheckCand                                 (* lines 274-279 *)
| RunEnter (t : test)                       (* lines 223-226 *)
| Chdir (t : test)                          (* lines 228-229 *)
| Launch (t : test)                         (* lines 230-235 *)
| Launched (t : test) (start : Z)           (* lines 236-240 *)
| Exiting (t : test) (start : Z) (ret : option Z)
    (* the end of the [with] block of line 235 after line 237: the wait of
       [Popen.__exit__]; [ret] is [None] when [send_signal] has raised *)
| CheckRetry (t : test) (start ret : Z)     (* line 242 *)
| Timing (t : test) (start ret : Z)         (* lines 246-247 *)
| Finish (t : test) (line : row)            (* lines 249-253 *)
| Release                                   (* lines 281-282 *)
| Stopped                                   (* [_schedule_tests] has returned *)
| Raised (e : error) (held : option test).
    (* the exception [e] has left it; [held] is the case that [_run_test]
       had in hand *)

(** The locals of [_schedule_tests]. *)
Record local := mkLocal {
  l_pc : pc;
  running_groups : list string;
  test_group : option string;
  test_candidate : option test
}.

Definition goto (p : pc) (l : local) : local :=
  mkLocal p (running_groups l) (test_group l) (test_candidate l).

(** What a step does that can be seen from outside the worker. *)
Inductive event :=
| EvBreakInterrupt                 (* line 261 *)
| EvBreakEmpty                     (* line 264 *)
| EvScan (cand : option test)      (* the lock block of lines 267-272 *)
| EvReturn                         (* line 275 *)
| EvClaim (t : test)               (* line 278 *)
| EvPut (name : string)            (* line 226 *)
| EvChdir (t : test)               (* line 229 *)
| EvLaunch (t : test) (log : string) (* lines 234-235 *)
| EvSignal (sig : Z)               (* line 237 *)
| EvWait (ret : Z)                 (* line 240 *)
| EvExit (code : Z)                (* the process has ended, line 235 left *)
| EvRetry (t : test)               (* line 243 *)
| EvFinal (t : test) (ret : Z)     (* line 242, condition false *)
| EvRecord (line : row)            (* lines 250-252 *)
| EvRelease (group : string).      (* line 282 *)

(** One step of a worker on the store [s], none of its statements raising
    but those whose exception the store decides.  [exit_code] is the exit
    code of the process if the step is the return of a wait: the one of
    line 240, or the one at the end of the [with] block after line 237. *)
Definition worker_step (s : shared) (l : local) (exit_code : Z)
    : shared * local * option event :=
  match l_pc l with
  | LoopTop =>
      if INTERRUPT s then (s, goto Stopped l, Some EvBreakInterrupt)
      else (s, goto CheckEmpty l, None)
  | CheckEmpty =>
      match tests s with
      | [] => (s, goto Stopped l, Some EvBreakEmpty)
      | _ :: _ => (s, goto Scan l, None)
      end
  | Scan =>
      match scan (tests s) (running_groups l) with
      | Some (q, cand) =>
          (set_tests q s,
           mkLocal CheckCand (running_groups l) (test_group l) cand,
           Some (EvScan cand))
      | None => (s, goto (Raised IndexError None) l, None)
      end
  | CheckCand =>
      match test_candidate l with
      | None => (s, goto Stopped l, Some EvReturn)
      | Some t =>
          let g := group_of (test_name t) in
          (s, mkLocal (RunEnter t) (running_groups l ++ [g]) (Some g) (Some t),
           Some (EvClaim t))
      end
  | RunEnter t =>
      (set_running_tests (running_tests s ++ [test_name t]) s,
       goto (Chdir t) l, Some (EvPut (test_name t)))
  | Chdir t =>
      (set_cwd (resolve (cwd s) (working_dir t)) s, goto (Launch t) l,
       Some (EvChdir t))
  | Launch t =>
      (add_opened (resolve (cwd s) (log_of t)) s,
       goto (Launched t (clock s)) l, Some (EvLaunch t (log_of t)))
  | Launched t start =>
      if INTERRUPT s
      then (s, goto (Exiting t start (Some (- SIGINT))) l,
            Some (EvSignal SIGINT))
      else (s, goto (CheckRetry t start exit_code) l, Some (EvWait exit_code))
  | Exiting t start ret =>
      match ret with
      | Some r => (s, goto (CheckRetry t start r) l, Some (EvExit exit_code))
      | None =>
          (s, goto (Raised SignalError (Some t)) l, Some (EvExit exit_code))
      end
  | CheckRetry t start ret =>
      if wants_retry ret t (INTERRUPT s)
      then (s, goto (RunEnter (retry_of t)) l, Some (EvRetry (retry_of t)))
      else (s, goto (Timing t start ret) l, Some (EvFinal t ret))
  | Timing t start ret =>
      (s,
       goto (Finish t (mkRow (test_name t) (status_of ret)
                             (run_time (clock s) start) (log_of t))) l,
       None)
  | Finish t line =>
      match running_tests s with
      | [] => (s, l, None)         (* [Queue.get()] blocks on an empty queue *)
      | _ :: r => (record_result r line s, goto Release l, Some (EvRecord line))
      end
  | Release =>
      match running_groups l with
      | [] => (s, goto LoopTop l, None)
      | _ :: _ =>
          match test_group l with
          | Some g =>
              match py_remove g (running_groups l) with
              | Some rg =>
                  (s, mkLocal LoopTop rg (test_group l) (test_candidate l),
                   Some (EvRelease g))
              | None => (s, goto (Raised RemoveError None) l, None)
              end
          | None => (s, goto (Raised RemoveError None) l, None)
          end
      end
  | Stopped => (s, l, None)
  | Raised _ _ => (s, l, None)
  end.

(** The statement that the worker is about to execute raises, where the
    environment can make it: [mkdir] or [os.chdir] (lines 228-229), [open]
    (line 234), [send_signal] when [INTERRUPT] is set (line 237) and the
    call of line 243 when line 242 asks for it.  Nothing of the statement
    has happened.  After [send_signal] has raised, the [with] block still
    waits for the process.  Elsewhere nothing raises and the action does
    nothing. *)
Definition worker_throw (s : shared) (l : local) : local :=
  match l_pc l with
  | Chdir t | Launch t => goto (Raised OSError (Some t)) l
  | Launched t start =>
      if INTERRUPT s then goto (Exiting t start None) l else l
  | CheckRetry t start ret =>
      if wants_retry ret t (INTERRUPT s)
      then goto (Raised RecursionError (Some t)) l
      else l
  | _ => l
  end.

(** ** The pool *)

(** The store, the workers of the pool and the events so far, each with the
    index of its worker.  No step reads the history. *)
Record config := mkConfig {
  sh : shared;
  ws : list local;
  hist : list (nat * event)
}.

Inductive action :=
| Work (i : nat) (exit_code : Z)   (* worker [i] takes its next step *)
| Interrupt                        (* line 324, the main thread *)
| Tick (d : nat)                   (* [d] milliseconds pass *)
| Throw (i : nat).                 (* the next statement of worker [i] raises *)

Definition note (i : nat) (e : option event) : list (nat * event) :=
  match e with
  | Some ev => [(i, ev)]
  | None => []
  end.

Definition step (c : config) (a : action) : config :=
  match a with
  | Work i exit_code =>
      match ws c !! i with
      | Some l =>
          let '(s, l', e) := worker_step (sh c) l exit_code in
          mkConfig s (<[i := l']> (ws c)) (hist c ++ note i e)
      | None => c
      end
  | Interrupt => mkConfig (set_INTERRUPT (sh c)) (ws c) (hist c)
  | Tick d => mkConfig (advance d (sh c)) (ws c) (hist c)
  | Throw i =>
      match ws c !! i with
      | Some l => mkConfig (sh c) (<[i := worker_throw (sh c) l]> (ws c)) (hist c)
      | None => c
      end
  end.

Definition exec (sched : list action) (c : config) : config :=
  fold_left step sched c.

(** A worker as [executor.submit(self._schedule_tests)] starts it
    (lines 256-257). *)
Definition fresh : local := mkLocal LoopTop [] None None.

(** The pool of [jobs] workers of line 318 on the store [s]. *)
Definition pool (s : shared) (jobs : nat) : config :=
  mkConfig s (replicate jobs fresh) [].

(** The store after [__init__] and [get_test_list] have filled the queue. *)
Definition start_store (q : list test) (dir : string) : shared :=
  mkShared q [] 0 [] false dir 0 [].

(** The case that a worker has claimed and that has no line yet: the worker
    is inside [_run_test], or an exception has taken it out of there. *)
Definition in_run (p : pc) : option test :=
  match p with
  | RunEnter t | Chdir t | Launch t | Launched t _ | Exiting t _ _
  | CheckRetry t _ _ | Timing t _ _ | Finish t _ => Some t
  | Raised _ held => held
  | _ => None
  end.

(** The case whose child process a worker has started and not yet waited
    for. *)
Definition executing (p : pc) : option test :=
  match p with
  | Launched t _ | Exiting t _ _ => Some t
  | _ => None
  end.

Definition pc_of (c : config) (i : nat) : option pc := l_pc <$> ws c !! i.

(** ** Reading a history *)

Definition is_claim (e : event) : bool :=
  match e with EvClaim _ => true | _ => false end.
Definition is_put (e : event) : bool :=
  match e with EvPut _ => true | _ => false end.
Definition is_retry (e : event) : bool :=
  match e with EvRetry _ => true | _ => false end.
Definition is_record (e : event) : bool :=
  match e with EvRecord _ => true | _ => false end.
Definition is_release (e : event) : bool :=
  match e with EvRelease _ => true | _ => false end.

Fixpoint count (p : event → bool) (h : list event) : nat :=
  match h with
  | [] => O
  | e :: h' => ((if p e then 1 else 0) + count p h')%nat
  end.

(** The events of worker [i]. *)
Definition evs (i : nat) (h : list (nat * event)) : list event :=
  omap (λ x, if decide (x.1 = i) then Some x.2 else None) h.

(** All events, whoever made them. *)
Definition all_evs (h : list (nat * event)) : list event := snd <$> h.

(** The events of a worker since its latest claim, the claim included;
    empty before the first claim. *)
Definition segment_step (acc : list event) (e : event) : list event :=
  if is_claim e then [e]
  else match acc with
       | [] => []
       | _ :: _ => acc ++ [e]
       end.

Definition segment (h : list event) : list event :=
  fold_left segment_step h [].

(** The lines that the history says were written to [self.results]. *)
Definition rows_of (h : list (nat * event)) : list row :=
  omap (λ x, match x.2 with EvRecord line => Some line | _ => None end) h.

(** The case that was the latest to reach [os.chdir], if any has, starting
    from [t0]. *)
Definition last_started (h : list (nat * event)) (t0 : option test) : option test :=
  fold_left (λ acc x, match x.2 with EvChdir t => Some t | _ => acc end) h t0.

(** The directory that the calls of [os.chdir] have led to from [d], each
    call looked up in the directory of the call before it. *)
Definition last_chdir (h : list (nat * event)) (d : string) : string :=
  fold_left (λ acc x, match x.2 with
                      | EvChdir t => resolve acc (working_dir t)
                      | _ => acc
                      end) h d.

(** What an event of the case called [name] may be. *)
Definition of_case (name : string) (e : event) : Prop :=
  match e with
  | EvClaim t | EvRetry t | EvFinal t _ | EvChdir t => test_name t = name
  | EvLaunch t log => test_name t = name ∧ log = log_of t
  | EvPut n => n = name
  | EvRecord line => Test line = name
  | EvRelease g => g = group_of name
  | _ => True
  end.

(** ** What holds of a worker between its steps *)

(** The locals and the program point agree: [running_groups] is empty
    whenever the worker is outside [_run_test] and about to look at the
    queue, and holds the group of the case in hand otherwise. *)
Definition tidy (l : local) : Prop :=
  match l_pc l with
  | LoopTop | CheckEmpty | Scan | Stopped => running_groups l = []
  | CheckCand => running_groups l = []
  | RunEnter t | Chdir t | Launch t | Launched t _ | Exiting t _ _
  | CheckRetry t _ _ | Timing t _ _ =>
      running_groups l = [group_of (test_name t)]
      ∧ test_group l = Some (group_of (test_name t))
  | Finish t line =>
      running_groups l = [group_of (test_name t)]
      ∧ test_group l = Some (group_of (test_name t))
      ∧ Test line = test_name t
  | Release => ∃ g, running_groups l = [g] ∧ test_group l = Some g
  | Raised (IndexError | RemoveError) _ => False
  | Raised _ held => is_Some held
  end.

(** How far the case in hand has come, read off the program point: the
    number of [put]s not yet matched by a retry, the line written or not, the
    group given back or not. *)
Inductive phase := Idle | Entering (t : test) | Running (t : test) | Recorded.

Definition phase_of (p : pc) : phase :=
  match p with
  | RunEnter t => Entering t
  | Chdir t | Launch t | Launched t _ | Exiting t _ _ | CheckRetry t _ _
  | Timing t _ _ | Finish t _ => Running t
  | Raised _ (Some t) => Running t
  | Release => Recorded
  | _ => Idle
  end.

(** The history of a worker and its program point agree. *)
Definition shape (h : list event) (l : local) : Prop :=
  let seg := segment h in
  match phase_of (l_pc l) with
  | Idle =>
      count is_claim h = count is_record h
      ∧ count is_record h = count is_release h
      ∧ (seg = [] ∨
         (count is_put seg = S (count is_retry seg)
          ∧ count is_record seg = 1%nat ∧ count is_release seg = 1%nat
          ∧ ∃ name, Forall (of_case name) seg))
  | Entering t =>
      count is_claim h = S (count is_record h)
      ∧ count is_record h = count is_release h
      ∧ count is_put seg = count is_retry seg
      ∧ count is_record seg = O ∧ count is_release seg = O
      ∧ seg ≠ [] ∧ Forall (of_case (test_name t)) seg
  | Running t =>
      count is_claim h = S (count is_record h)
      ∧ count is_record h = count is_release h
      ∧ count is_put seg = S (count is_retry seg)
      ∧ count is_record seg = O ∧ count is_release seg = O
      ∧ seg ≠ [] ∧ Forall (of_case (test_name t)) seg
  | Recorded =>
      count is_claim h = count is_record h
      ∧ count is_record h = S (count is_release h)
      ∧ count is_put seg = S (count is_retry seg)
      ∧ count is_record seg = 1%nat ∧ count is_release seg = O
      ∧ seg ≠ []
      ∧ ∃ g name, test_group l = Some g ∧ g = group_of name
                  ∧ Forall (of_case name) seg
  end.

(** The number of workers that have put a name in [_running_tests] and not
    yet taken one out. *)
Definition owed (l : local) : nat :=
  match phase_of (l_pc l) with
  | Running _ => 1%nat
  | _ => O
  end.

(** The store agrees with the history of a pool started on the store
    [s0]. *)
Definition store_inv (s0 : shared) (c : config) : Prop :=
  results (sh c) = results s0 ++ rows_of (hist c)
  ∧ cwd (sh c) = last_chdir (hist c) (cwd s0)
  ∧ (length (running_tests (sh c)) + count is_record (all_evs (hist c))
     = length (running_tests s0) + count is_put (all_evs (hist c)))%nat
  ∧ (sum_list_with owed (ws c) ≤ length (running_tests (sh c)))%nat.

(** A worker that has left the loop at its first check. *)
Definition stopped_at_once : local := goto Stopped fresh.

(** A pool started on the store [s] in which nothing has happened but
    workers leaving at line 261. *)
Definition halted (s : shared) (c : config) : Prop :=
  tests (sh c) = tests s
  ∧ running_tests (sh c) = running_tests s
  ∧ finished (sh c) = finished s
  ∧ results (sh c) = results s
  ∧ cwd (sh c) = cwd s
  ∧ INTERRUPT (sh c) = true
  ∧ Forall (λ l, l = fresh ∨ l = stopped_at_once) (ws c)
  ∧ Forall (λ x, x.2 = EvBreakInterrupt) (hist c).

(** A property of every worker of a pool together with its own events. *)
Definition per_worker (W : list event → local → Prop) (c : config) : Prop :=
  ∀ i l, ws c !! i = Some l → W (evs i (hist c)) l.

(** ** What the pool is doing *)

(** The case whose child process worker [i] has running. *)
Definition executing_at (c : config) (i : nat) : option test :=
  pc_of c i ≫= executing.

(** No two workers have child processes of cases of one group. *)
Definition one_case_per_group (c : config) : Prop :=
  ∀ i j t u, i ≠ j →
    executing_at c i = Some t → executing_at c j = Some u →
    group_of (test_name t) ≠ group_of (test_name u).

(** ** Runs used as examples *)

(** A tuple as line 308 builds it for the test [name], under the output
    directory [/out]. *)
Definition case (name : string) (retries : Z) : test :=
  mkTest name ("gtest --gtest_filter=" +:+ name) ("/out/" +:+ name) retries.

(** Worker [i] steps [n] times, nothing raising; a wait for the process
    among the steps sees the exit code 0. *)
Definition steps (i : nat) (n : nat) : list action := replicate n (Work i 0).

(** From the top of the loop to the started child process: lines 260, 263,
    266-272, 274-279, 225-226, 228-229, 230-235. *)
Definition until_launched (i : nat) : list action := steps i 7.

(** Two cases of the suite [A], none retried, and two workers. *)
Definition suite_A : list test := [case "A.t1" 0; case "A.t2" 0].

Definition one_launched : config :=
  exec (until_launched 0) (pool (start_store suite_A "/") 2).

Definition both_launched : config := exec (until_launched 1) one_launched.

(** The number of entries of [_running_tests] that are [name]. *)
Definition entries (name : string) (q : list string) : nat :=
  length (filter (λ n, n = name) q).

(** One case, not retried, and one worker, up to the lock block of
    lines 249-253: two checks, the scan, line 274, then lines 225-253 in
    seven steps. *)
Definition line_written : config :=
  exec (steps 0 11) (pool (start_store [case "A.t1" 0] "/") 1).

(** The line of a case is in [self.results] only after the worker has given
    its group back: worker [i] has never written more lines than it has
    released groups. *)
Definition released_first (c : config) : Prop :=
  ∀ i, (count is_record (evs i (hist c)) ≤ count is_release (evs i (hist c)))%nat.

(** One case with one retry left and one worker; the child process of the
    first attempt is killed by a SIGINT that is not the program's own, so
    that [process.wait()] returns [-SIGINT] with [INTERRUPT] not set. *)
Definition killed_from_outside : config :=
  exec (until_launched 0 ++ [Work 0 (- SIGINT)])
       (pool (start_store [case "A.t1" 1] "/") 1).

(** The next step of worker [i], at line 242 with the exit code [ret] of the
    case [t], runs the case again exactly when the status of [ret] is
    [Failed], a retry is left and [INTERRUPT] is not set. *)
Definition rerun_iff_failed (c : config) (i : nat) (t : test) (ret : Z) : Prop :=
  pc_of (step c (Work i 0)) i = Some (RunEnter (retry_of t))
  ↔ status_of ret = "Failed" ∧ 0 < retry t ∧ INTERRUPT (sh c) = false.

(** The exit code with which the latest child process among the events [h]
    has ended. *)
Definition child_code (h : list event) : option Z :=
  fold_left (λ acc e, match e with
                      | EvWait code | EvExit code => Some code
                      | _ => acc
                      end) h None.

(** The line that worker [i] has written for its latest case has the status
    of the exit code of the child process of the final attempt. *)
Definition status_of_the_child (c : config) (i : nat) : Prop :=
  let seg := segment (evs i (hist c)) in
  ∀ line code, EvRecord line ∈ seg → child_code seg = Some code →
    Status line = status_of code.

(** The step of worker [i] that finds [INTERRUPT] set at line 236 takes it
    to line 242 with the code [-SIGINT], without a wait. *)
Definition goes_on_without_waiting (c : config) (i : nat) : Prop :=
  ∀ ex, ∃ t start,
    pc_of (step c (Work i ex)) i = Some (CheckRetry t start (- SIGINT)).

(** A tuple with a relative working directory, as line 308 builds it when
    [--output] is the relative path [out]. *)
Definition relative_case (name : string) : test :=
  mkTest name ("gtest --gtest_filter=" +:+ name) ("out/" +:+ name) 0.

(** One worker and the queue [A.t1; B.t1]: [A.t1] exits with 1, is run
    again and passes; then [B.t1] passes at once.  The run stops after the
    lock block of lines 249-253 for [B.t1]. *)
Definition two_cases_done : config :=
  exec (until_launched 0 ++ [Work 0 1] ++ steps 0 1   (* A.t1 fails, line 243 *)
        ++ steps 0 3 ++ steps 0 4                      (* A.t1 again, passes *)
        ++ steps 0 1                                   (* line 282 *)
        ++ until_launched 0 ++ steps 0 4)              (* B.t1 passes *)
       (pool (start_store [case "A.t1" 1; case "B.t1" 0] "/") 1).

(** After worker [i] has finished the case [name], the entries of
    [_running_tests] with that name are as many as the case was retried. *)
Definition leaves_its_retries (c : config) (i : nat) (name : string) : Prop :=
  entries name (running_tests (sh c))
  = count is_retry (segment (evs i (hist c))).

(** [INTERRUPT] is set, no case has been claimed and [self.results] is
    empty. *)
Definition cancelled_before_claim (c : config) : Prop :=
  INTERRUPT (sh c) = true
  ∧ count is_claim (all_evs (hist c)) = O
  ∧ results (sh c) = [].

(** However the run goes on from [c], [self.results] stays empty. *)
Definition stays_empty (c : config) : Prop :=
  ∀ sched, results (sh (exec sched c)) = [].

(** One worker and one case: the worker passes line 260, then the main
    thread sets [INTERRUPT]. *)
Definition signal_after_check : config :=
  exec [Work 0 0; Interrupt] (pool (start_store [case "A.t1" 0] "/") 1).

(** A worker in the middle of [_run_test] for the case [A.t1]. *)
Definition inside (p : pc) : local :=
  mkLocal p ["A"] (Some "A") (Some (case "A.t1" 0)).

(** A bound on the steps that a worker inside [_run_test] still takes before
    it is back in [_schedule_tests]: six for every retry that is left, and
    the steps of the attempt in hand. *)
Definition steps_left (p : pc) : nat :=
  match p with
  | RunEnter t => (6 * Z.to_nat (retry t) + 8)%nat
  | Chdir t => (6 * Z.to_nat (retry t) + 7)%nat
  | Launch t => (6 * Z.to_nat (retry t) + 6)%nat
  | Launched t _ => (6 * Z.to_nat (retry t) + 5)%nat
  | Exiting t _ _ => (6 * Z.to_nat (retry t) + 4)%nat
  | CheckRetry t _ _ => (6 * Z.to_nat (retry t) + 3)%nat
  | Timing _ _ _ => 2%nat
  | Finish _ _ => 1%nat
  | _ => O
  end.

(** One worker and one case with two retries whose process always exits
    with 1: three attempts of five steps, the last one followed by lines
    246-253 and line 282. *)
Definition always_failing : config :=
  exec (steps 0 4
        ++ steps 0 3 ++ [Work 0 1; Work 0 1]
        ++ steps 0 3 ++ [Work 0 1; Work 0 1]
        ++ steps 0 3 ++ [Work 0 1; Work 0 1]
        ++ steps 0 3)
       (pool (start_store [case "A.t1" 2] "/") 1).

(** ** Tactics *)

(** Takes the conjunctions, disjunctions and existentials among the
    hypotheses apart. *)
Ltac break_hyps :=
  repeat match goal with
         | H : _ ∧ _ |- _ => destruct H
         | H : ∃ _, _ |- _ => destruct H
         | H : _ ∨ _ |- _ => destruct H
         end.


(** * The rest of the run *)

(** ** Where the discovered cases are *)

(** The name of the case that a worker has taken off the queue and not yet
    written a line for. *)
Definition holding (l : local) : list string :=
  match l_pc l with
  | CheckCand =>
      match test_candidate l with
      | Some t => [test_name t]
      | None => []
      end
  | RunEnter t | Chdir t | Launch t | Launched t _ | Exiting t _ _
  | CheckRetry t _ _ | Timing t _ _ | Finish t _ => [test_name t]
  | _ => []
  end.

Definition in_flight (wl : list local) : list string :=
  concat (holding <$> wl).

(** The name of the case that a worker had in hand when an exception ended
    it: the case has no line and will get none. *)
Definition dropped (l : local) : list string :=
  match l_pc l with
  | Raised _ (Some t) => [test_name t]
  | _ => []
  end.

Definition abandoned (wl : list local) : list string :=
  concat (dropped <$> wl).

(** The case of a worker, held or dropped. *)
Definition kept (l : local) : list string := holding l ++ dropped l.



(** The cases that the scans have taken off the queue, in the order of the
    scans. *)
Definition scanned (h : list (nat * event)) : list test :=
  omap (λ x, match x.2 with EvScan (Some t) => Some t | _ => None end) h.

(** A worker that has found the queue empty: it has left the loop, or is
    about to at line 275. *)
Definition found_empty (l : local) : Prop :=
  l_pc l = Stopped ∨ (l_pc l = CheckCand ∧ test_candidate l = None).

(** The discovered cases are accounted for in a pool started on the store
    [s0]. *)
Definition accounted (s0 : shared) (c : config) : Prop :=
  tests s0 = scanned (hist c) ++ tests (sh c)
  ∧ test_name <$> scanned (hist c)
    ≡ₚ (Test <$> rows_of (hist c)) ++ in_flight (ws c) ++ abandoned (ws c)
  ∧ finished (sh c) = (finished s0 + length (rows_of (hist c)))%nat
  ∧ ((∃ i l, ws c !! i = Some l ∧ found_empty l) →
     INTERRUPT (sh c) = true ∨ tests (sh c) = []).

(** ** After the interrupt *)

(** The claims that a worker can still make once [INTERRUPT] is set: one if
    it is between the check of line 260 and line 278 with a candidate in
    reach, none otherwise. *)
Definition claims_left (l : local) : nat :=
  match l_pc l with
  | CheckEmpty | Scan => 1%nat
  | CheckCand => if test_candidate l is Some _ then 1%nat else O
  | _ => O
  end.

(** Since the configuration [c0], in which [INTERRUPT] was set, nothing has
    been retried and every worker has used no more than its claims left. *)
Definition winding_down (c0 c : config) : Prop :=
  INTERRUPT (sh c) = true
  ∧ count is_retry (all_evs (hist c)) = count is_retry (all_evs (hist c0))
  ∧ ∀ i l', ws c !! i = Some l' →
      ∃ l, ws c0 !! i = Some l
           ∧ (count is_claim (evs i (hist c)) + claims_left l'
              ≤ count is_claim (evs i (hist c0)) + claims_left l)%nat.

(** ** The retries of a case *)

(** The tuple of the latest claim among the events of a worker. *)
Definition claimed (seg : list event) : option test :=
  match seg with
  | EvClaim t :: _ => Some t
  | _ => None
  end.

(** The retries since the latest claim are within the [retry] of the
    claimed tuple, and the tuple in hand has as many retries less. *)
Definition within_retries (h : list event) (l : local) : Prop :=
  let seg := segment h in
  seg ≠ [] →
  ∃ t0, claimed seg = Some t0
        ∧ (count is_retry seg ≤ Z.to_nat (retry t0))%nat
        ∧ ∀ t, in_run (l_pc l) = Some t →
            retry t = retry t0 - Z.of_nat (count is_retry seg)
            ∧ test_name t = test_name t0
            ∧ cmd t = cmd t0
            ∧ working_dir t = working_dir t0.

(** One worker and one case that passes at once, until the worker has left
    the loop: the eleven steps of [line_written], line 282, and the checks
    of lines 260 and 263 on the empty queue. *)
Definition run_to_the_end : list action := steps 0 14.

(** ** The end of a run *)







(** * Discovery: [get_test_list] (lines 284-311) *)

(** ** Strings *)

(** [str.isspace] on the ASCII characters: tab, line feed, vertical tab, form
    feed, carriage return, the four separators 28-31 and the space.  The
    output of the binary is taken to be ASCII. *)
Definition is_space (c : ascii) : bool :=
  let n := nat_of_ascii c in
  ((9 <=? n) && (n <=? 13) || (28 <=? n) && (n <=? 32))%nat.

Fixpoint lstrip (s : string) : string :=
  match s with
  | String c rest => if is_space c then lstrip rest else s
  | EmptyString => EmptyString
  end.

Fixpoint rstrip (s : string) : string :=
  match s with
  | String c rest =>
      match rstrip rest with
      | EmptyString => if is_space c then EmptyString else String c EmptyString
      | r => String c r
      end
  | EmptyString => EmptyString
  end.

(** [s.strip()]. *)
Definition strip (s : string) : string := rstrip (lstrip s).

(** [s.split(sep)[0]] for a separator of one character: [s] up to its first
    [sep], all of [s] when it has none. *)
Fixpoint before (sep : ascii) (s : string) : string :=
  match s with
  | EmptyString => EmptyString
  | String c rest =>
      if Ascii.eqb c sep then EmptyString else String c (before sep rest)
  end.

(** The double quote as a string. *)
Definition quote : string := String (ascii_of_nat 34) EmptyString.

(** [" ".join(l)]. *)
Fixpoint join_spaces (l : list string) : string :=
  match l with
  | [] => EmptyString
  | [x] => x
  | x :: rest => x +:+ " " +:+ join_spaces rest
  end.

(** ** The loop over the lines *)

(** What [get_test_list] reads of [self] and [self.options].  [gtest] is
    [self.gtest.as_posix()]. *)
Record options := mkOptions {
  gtest : string;
  opts : list string;
  output : string;
  opt_retry : Z;
  jobs : Z
}.

(** [current_group] and [self._tests] between two lines. *)
Record listing := mkListing {
  current_group : option string;
  found : list test
}.

(** How an f-string shows [current_group]: [None] prints as the word. *)
Definition show_group (g : option string) : string :=
  match g with
  | Some s => s
  | None => "None"
  end.

Section Discovery.

(** [self.options.output / test_name], the join of [pathlib]. *)
Variable joinpath : string → string → string.

(** Lines 301-308 for the test of the name [test_name]. *)
Definition test_tuple (o : options) (test_name : string) : test :=
  let test_cmd :=
    quote +:+ gtest o +:+ quote +:+ " --gtest_filter=" +:+ test_name in
  let test_cmd :=
    match opts o with
    | [] => test_cmd
    | _ :: more => test_cmd +:+ " " +:+ join_spaces more
    end in
  mkTest test_name test_cmd (joinpath (output o) test_name) (opt_retry o).

(** The body of the loop, lines 294-308, for one line of the output. *)
Definition read_line (o : options) (st : listing) (line : string) : listing :=
  let stripped_line := strip (before "#"%char line) in
  match stripped_line with
  | EmptyString => st
  | _ =>
      match line with
      | EmptyString => st
      | String c _ =>
          if negb (Ascii.eqb c " "%char)
          then mkListing (Some stripped_line) (found st)
          else
            mkListing (current_group st)
              (found st
               ++ [test_tuple o (show_group (current_group st) +:+ stripped_line)])
      end
  end.

(** Lines 291-308 on the lines of the output of [--gtest_list_tests]. *)
Definition read_lines (o : options) (lines : list string) : listing :=
  fold_left (read_line o) lines (mkListing None []).

(** Lines 310-311: [self._total] and the new [self.options.jobs]. *)
Definition total_and_jobs (o : options) (lines : list string) : Z * Z :=
  let total := Z.of_nat (length (found (read_lines o lines))) in
  (total, Z.min (jobs o) total).

End Discovery.

(** A name as the binary prints it: not empty, and neither a space character
    nor [#] in it. *)
Definition plain (s : string) : Prop :=
  s ≠ EmptyString
  ∧ ∀ c, In c (list_ascii_of_string s) →
      is_space c = false ∧ c ≠ "#"%char.

(** The lines that the binary prints for the suites [suites], each with its
    tests: the name of the suite and a dot, then each test after two
    spaces. *)
Definition printed (suites : list (string * list string)) : list string :=
  suites ≫= λ '(g, ts), (g +:+ ".") :: ((λ t, "  " +:+ t) <$> ts).

(** The qualified names of the tests of [suites]. *)
Definition qualified (suites : list (string * list string)) : list string :=
  suites ≫= λ '(g, ts), (λ t, g +:+ "." +:+ t) <$> ts.

(** * The instruction formats: field.py and base_format.py *)

(** ** Exceptions *)

Inductive exn := ValueError | KeyError.

Inductive result (A : Type) :=
| Ok (a : A)
| Raise (e : exn).
Arguments Ok {A} a.
Arguments Raise {A} e.

(** An exception in [r] leaves the rest undone. *)
#[global] Instance result_bind : MBind result := λ A B k r,
  match r with
  | Ok a => k a
  | Raise e => Raise e
  end.

(** [a << n] on the integers of Python: a negative count raises. *)
Definition shl (a n : Z) : result Z :=
  if n <? 0 then Raise ValueError else Ok (Z.shiftl a n).

(** ** The built-ins behind [hex] and [bytes]

    The text of a number is a list of characters here. *)

(** The digit [d] of [hex]: [0-9a-f]. *)
Definition hex_digit (d : Z) : ascii :=
  ascii_of_nat (Z.to_nat (if d <? 10 then 48 + d else 87 + d)).

(** The digits of [n], the most significant first, before [acc]; [fuel]
    bounds their number. *)
Fixpoint hex_digits (fuel : nat) (n : Z) (acc : list ascii) : list ascii :=
  match fuel with
  | O => acc
  | S k =>
      if n =? 0 then acc
      else hex_digits k (n / 16) (hex_digit (n mod 16) :: acc)
  end.

(** [hex(n)]: a sign if [n] is negative, [0x], and the digits of [abs(n)]. *)
Definition py_hex (n : Z) : list ascii :=
  let a := Z.abs n in
  (if n <? 0 then ["-"%char] else [])
  ++ ["0"%char; "x"%char]
  ++ (if a =? 0 then ["0"%char]
      else hex_digits (S (Z.to_nat (Z.log2 a))) a []).

Definition is_sign (c : ascii) : bool :=
  bool_decide (c = "+"%char ∨ c = "-"%char).

(** [s.zfill(width)]: zeros on the left up to the length [width], after a
    sign if there is one. *)
Definition zfill (width : Z) (s : list ascii) : list ascii :=
  let pad := replicate (Z.to_nat width - length s) "0"%char in
  match s with
  | c :: rest => if is_sign c then c :: pad ++ rest else pad ++ s
  | [] => pad
  end.

(** The value of a hexadecimal digit of either case. *)
Definition hex_value (c : ascii) : option Z :=
  let n := Z.of_nat (nat_of_ascii c) in
  if (48 <=? n) && (n <=? 57) then Some (n - 48)
  else if (97 <=? n) && (n <=? 102) then Some (n - 87)
  else if (65 <=? n) && (n <=? 70) then Some (n - 55)
  else None.

(** The white space that [bytes.fromhex] skips. *)
Definition is_ascii_space (c : ascii) : bool :=
  let n := nat_of_ascii c in
  ((9 <=? n) && (n <=? 13) || (n =? 32))%nat.

(** [bytes.fromhex(s)]: one byte for each pair of digits, white space
    between the pairs skipped; anything else raises. *)
Fixpoint fromhex (s : list ascii) : result (list Z) :=
  match s with
  | [] => Ok []
  | c :: rest =>
      if is_ascii_space c then fromhex rest
      else
        match rest with
        | c' :: rest' =>
            match hex_value c, hex_value c' with
            | Some h, Some l => bs ← fromhex rest'; Ok (16 * h + l :: bs)
            | _, _ => Raise ValueError
            end
        | [] => Raise ValueError
        end
  end.

Module Field.

Inductive FieldType := DEFAULT | IMPLIED | VIRTUAL.

(** A [Field]: the user attributes of lines 19-26 and the internal ones of
    lines 29-32. *)
Record t := mk {
  name : string;
  values : option (list Z);
  start : Z;
  end_ : Z;
  default : Z;
  cfield : option string;
  cvalue : Z;
  ftype : FieldType;
  _size : Z;
  _mask : Z;
  _value : Z;
  _rand_mode : bool
}.

Definition is_virtual (f : t) : bool :=
  match ftype f with VIRTUAL => true | _ => false end.

(** The construction of a field from its user attributes:
    [model_post_init], lines 40-46. *)
Definition create (name : string) (values : option (list Z))
    (start end_ default : Z) (cfield : option string) (cvalue : Z)
    (ftype : FieldType) : result t :=
  let size := end_ - start + 1 in
  one ← shl 1 size;
  Ok (mk name values start end_ default cfield cvalue ftype
         size (one - 1) default
         (match ftype with IMPLIED => false | _ => true end)).

(** [set_value], lines 82-83. *)
Definition set_value (v : Z) (f : t) : t :=
  mk (name f) (values f) (start f) (end_ f) (default f) (cfield f) (cvalue f)
     (ftype f) (_size f) (_mask f) v (_rand_mode f).

(** [set_rand_mode], lines 79-80. *)
Definition set_rand_mode (mode : bool) (f : t) : t :=
  mk (name f) (values f) (start f) (end_ f) (default f) (cfield f) (cvalue f)
     (ftype f) (_size f) (_mask f) (_value f) mode.

(** [get_pos_value], lines 91-93. *)
Definition get_pos_value (f : t) (format_bits : Z) : result Z :=
  one ← shl 1 format_bits;
  let format_mask := one - 1 in
  shifted ← shl (Z.land (_value f) (_mask f)) (start f);
  Ok (Z.land shifted format_mask).

(** [domain], lines 67-77.  [sample] is the list that the thousand calls of
    [random.randint] of line 74 give. *)
Definition domain (sample : list Z) (f : t) : result (list Z) :=
  if _rand_mode f then
    match values f with
    | Some (v :: vs) => Ok (v :: vs)
    | _ =>
        if 16 <? _size f then Ok sample
        else one ← shl 1 (_size f); Ok (seqZ 0 one)
    end
  else Ok [default f].

(** No list of values was given: [self.values] is [None] or empty, and the
    test of line 70 fails. *)
Definition no_values (f : t) : Prop :=
  values f = None ∨ values f = Some [].

(** What [create] leaves true of a field and the setters keep. *)
Definition built (f : t) : Prop :=
  0 ≤ _size f ∧ _size f = end_ f - start f + 1 ∧ _mask f = Z.ones (_size f).

(** The bit [n] of the format is one of the field. *)
Definition covers (f : t) (n : Z) : bool := (start f <=? n) && (n <=? end_ f).

(** The bits of two fields are apart. *)
Definition apart (f g : t) : Prop := end_ f < start g ∨ end_ g < start f.

End Field.

Module BaseFormat.

(** [self._bitwidth] and [self._fields], the dictionary in the order of
    insertion. *)
Record t := mk {
  _bitwidth : Z;
  _fields : list (string * Field.t)
}.

(** [self._fields[key]]. *)
Fixpoint getitem (fields : list (string * Field.t)) (key : option string)
    : result Field.t :=
  match fields with
  | [] => Raise KeyError
  | (k, f) :: rest => if decide (key = Some k) then Ok f else getitem rest key
  end.

(** The first loop of [encode], lines 63-66, over the fields [fs] still to
    come. *)
Fixpoint encode_plain (bitwidth : Z) (fs : list Field.t) (value : Z)
    : result Z :=
  match fs with
  | [] => Ok value
  | f :: rest =>
      if Field.is_virtual f then encode_plain bitwidth rest value
      else
        p ← Field.get_pos_value f bitwidth;
        encode_plain bitwidth rest (Z.lor value p)
  end.

(** The condition of line 72. *)
Definition active (fields : list (string * Field.t)) (f : Field.t)
    : result bool :=
  c ← getitem fields (Field.cfield f);
  Ok (Field._value c =? Field.cvalue f).

(** The second loop, lines 69-76. *)
Fixpoint encode_virtual (bitwidth : Z) (fields : list (string * Field.t))
    (fs : list Field.t) (value : Z) : result Z :=
  match fs with
  | [] => Ok value
  | f :: rest =>
      if Field.is_virtual f then
        a ← active fields f;
        if (a : bool) then
          m ← shl (Field._mask f) (Field.start f);
          let cleared := Z.land value (Z.lnot m) in
          p ← Field.get_pos_value f bitwidth;
          encode_virtual bitwidth fields rest (Z.lor cleared p)
        else encode_virtual bitwidth fields rest value
      else encode_virtual bitwidth fields rest value
  end.

(** [encode], lines 59-78. *)
Definition encode (fmt : t) : result Z :=
  let fs := snd <$> _fields fmt in
  value ← encode_plain (_bitwidth fmt) fs 0;
  encode_virtual (_bitwidth fmt) (_fields fmt) fs value.

(** [hex], lines 80-82. *)
Definition hex (fmt : t) : result (list ascii) :=
  v ← encode fmt;
  Ok (zfill (_bitwidth fmt / 4) (drop 2 (py_hex v))).

(** [bytes], lines 84-86. *)
Definition bytes (fmt : t) : result (list Z) :=
  h ← hex fmt;
  bs ← fromhex h;
  Ok (reverse bs).

(** A format whose fields [encode] can place: each is built and starts at a
    bit that is not negative, the width is not negative, and the field that a
    virtual field depends on is there. *)
Definition placeable (fmt : t) : Prop :=
  0 ≤ _bitwidth fmt
  ∧ Forall (λ f, Field.built f ∧ 0 ≤ Field.start f) (snd <$> _fields fmt)
  ∧ Forall (λ f, Field.is_virtual f = true →
                 ∃ a, active (_fields fmt) f = Ok a) (snd <$> _fields fmt).

(** The virtual field [f] takes part in the encoding. *)
Definition overriding (fmt : t) (f : Field.t) : Prop :=
  Field.is_virtual f = true ∧ active (_fields fmt) f = Ok true.

End BaseFormat.

(** ** The bits of an encoding *)

(** The bit [n] of the format as the field [f] sets it. *)
Definition bit_of_field (f : Field.t) (bitwidth n : Z) : bool :=
  Field.covers f n && (n <? bitwidth)
  && Z.testbit (Field._value f) (n - Field.start f).

(** The bit [n] after the first loop. *)
Definition plain_bit (bitwidth : Z) (fs : list Field.t) (n : Z) : bool :=
  existsb (λ f, negb (Field.is_virtual f) && bit_of_field f bitwidth n) fs.

(** Line 72 as a boolean. *)
Definition overrides (fields : list (string * Field.t)) (f : Field.t) : bool :=
  Field.is_virtual f
  && match BaseFormat.active fields f with Ok a => a | Raise _ => false end.

(** The bit [n] after the virtual fields [fs], from the bit [b] before
    them. *)
Definition virtual_bit (bitwidth : Z) (fields : list (string * Field.t))
    (fs : list Field.t) (n : Z) (b : bool) : bool :=
  fold_left
    (λ b f, if overrides fields f && Field.covers f n
            then bit_of_field f bitwidth n else b)
    fs b.
Arguments virtual_bit : simpl never.

(** [value] fits in [bitwidth] bits. *)
Definition fits (bitwidth value : Z) : Prop :=
  0 ≤ value < 2 ^ bitwidth.

(** ** The digits and the bytes of a number *)

(** The [n] lowest hexadecimal digits of [v], the most significant first. *)
Fixpoint hexn (n : nat) (v : Z) : list ascii :=
  match n with
  | O => []
  | S n' => hexn n' (v / 16) ++ [hex_digit (v mod 16)]
  end.

(** The [k] lowest bytes of [v], the least significant first. *)
Fixpoint le_bytes (k : nat) (v : Z) : list Z :=
  match k with
  | O => []
  | S k' => v mod 256 :: le_bytes k' (v / 256)
  end.

(** A text of hexadecimal digits as [hex] writes them. *)
Definition digits_only (s : list ascii) : Prop :=
  Forall (λ c, ∃ d, 0 ≤ d < 16 ∧ c = hex_digit d) s.

(** ** A format used as an example *)

(** A field of the default type with the bits [start] to [end_] and the
    value [v]. *)
Definition field_at (name : string) (start end_ v : Z) : Field.t :=
  Field.mk name None start end_ (-1) None 0 Field.DEFAULT
           (end_ - start + 1) (Z.ones (end_ - start + 1)) v true.

(** A virtual field that takes part when the field [cfield] has the value
    [cvalue]. *)
Definition virtual_at (name : string) (start end_ v : Z) (cfield : string)
    (cvalue : Z) : Field.t :=
  Field.mk name None start end_ (-1) (Some cfield) cvalue Field.VIRTUAL
           (end_ - start + 1) (Z.ones (end_ - start + 1)) v true.

(** Eight bits: an opcode in the bits 0-3, a destination in the bits 4-7,
    and an immediate in the bits 4-5 that takes the place of the low bits of
    the destination when the opcode is 5. *)
Definition small_format (opcode : Z) : BaseFormat.t :=
  BaseFormat.mk 8
    [("opcode", field_at "opcode" 0 3 opcode);
     ("dst", field_at "dst" 4 7 10);
     ("imm", virtual_at "imm" 4 5 3 "opcode" 5)].

(** * The summary (lines 328-395) *)

(** The statuses that line 247 writes. *)
Definition known_status (st : string) : Prop :=
  st = "Passed" ∨ st = "Failed" ∨ st = "Killed".

(** The line that a worker is about to write has one of them. *)
Definition writes_known (l : local) : Prop :=
  ∀ t line, l_pc l = Finish t line → known_status (Status line).

Definition statuses_known (c : config) : Prop :=
  Forall (λ r, known_status (Status r)) (results (sh c))
  ∧ Forall writes_known (ws c).

(** The column ['Suite'] of line 330: [x.split('.')[0].strip()]. *)
Definition suite_of (name : string) : string := strip (group_of name).

(** The lines of the group [g] of [results.groupby('Suite')]. *)
Definition rows_of_suite (g : string) (results : list row) : list row :=
  filter (λ r, suite_of (Test r) = g) results.

(** [(x == st).sum()] on the column ['Status'] of the lines [rs]. *)
Definition with_status (st : string) (rs : list row) : nat :=
  length (filter (λ r, Status r = st) rs).

Module Summary.

(** A line of [summary]: the columns of lines 333-337, [Time] before the
    division of line 340. *)
Record t := mk {
  Total : nat;
  Passed : nat;
  Failed : nat;
  Killed : nat;
  Time : Z
}.

End Summary.

(** The aggregation of lines 332-338 on the lines of one group. *)
Definition agg (rs : list row) : Summary.t :=
  Summary.mk (length rs) (with_status "Passed" rs) (with_status "Failed" rs)
             (with_status "Killed" rs) (foldr Z.add 0 (Time <$> rs)).

(** The line of [summary] for the suite [g]: a suite has a line when
    [results] has a line of it.  The order of the lines of [summary] is not
    represented. *)
Definition summary_row (results : list row) (g : string) : option Summary.t :=
  match rows_of_suite g results with
  | [] => None
  | rs => Some (agg rs)
  end.

(** The discovered cases of the suite [g]. *)
Definition cases_of_suite (g : string) (q : list test) : list test :=
  filter (λ t, suite_of (test_name t) = g) q.

(** The lines of the table of errors of [generate_html_report], lines
    351-357; without the table there are none.  [status] is the column
    ['Status']; [unique()] keeps what is in it. *)
Definition error_rows (results : list row) : list row :=
  let status := Status <$> results in
  if bool_decide ("Failed" ∈ status ∨ "Killed" ∈ status)
  then filter (λ r, Status r ≠ "Passed") results
  else [].
(** * Properties *)

(** ** Counting and histories *)

Lemma count_app p h1 h2 : count p (h1 ++ h2) = (count p h1 + count p h2)%nat.
Proof. induction h1 as [|e h1 IH]; simpl; [done | rewrite IH; lia]. Qed.

Lemma count_snoc p h e :
  count p (h ++ [e]) = (count p h + if p e then 1 else 0)%nat.
Proof. rewrite count_app. simpl. lia. Qed.

Lemma segment_snoc h e : segment (h ++ [e]) = segment_step (segment h) e.
Proof. unfold segment. by rewrite fold_left_app. Qed.

Lemma evs_app i h1 h2 : evs i (h1 ++ h2) = evs i h1 ++ evs i h2.
Proof. apply omap_app. Qed.

Lemma evs_note_same i e : evs i (note i e) = option_list e.
Proof. destruct e; simpl; [|done]. unfold evs. simpl. by rewrite decide_True. Qed.

Lemma evs_note_other i j e : i ≠ j → evs i (note j e) = [].
Proof.
  intros Hne. destruct e; simpl; [|done]. unfold evs. simpl.
  by rewrite decide_False.
Qed.

Lemma rows_of_app h1 h2 : rows_of (h1 ++ h2) = rows_of h1 ++ rows_of h2.
Proof. apply omap_app. Qed.

Lemma last_chdir_app h1 h2 d :
  last_chdir (h1 ++ h2) d = last_chdir h2 (last_chdir h1 d).
Proof. unfold last_chdir. by rewrite fold_left_app. Qed.

(** ** Schedules *)

Lemma exec_app s1 s2 c : exec (s1 ++ s2) c = exec s2 (exec s1 c).
Proof. unfold exec. by rewrite fold_left_app. Qed.

Lemma exec_invariant (Inv : config → Prop) :
  (∀ c a, Inv c → Inv (step c a)) →
  ∀ sched c, Inv c → Inv (exec sched c).
Proof.
  intros Hstep sched. induction sched as [|a sched IH]; intros c Hc; [done|].
  simpl. apply IH, Hstep, Hc.
Qed.

Lemma step_length_ws c a : length (ws (step c a)) = length (ws c).
Proof.
  destruct a as [i ex| |d|i]; simpl; try done.
  - destruct (ws c !! i) as [l|]; [|done].
    destruct (worker_step (sh c) l ex) as [[s l'] e]. simpl.
    by rewrite length_insert.
  - destruct (ws c !! i) as [l|]; [|done]. simpl.
    by rewrite length_insert.
Qed.

Lemma exec_length_ws sched c : length (ws (exec sched c)) = length (ws c).
Proof.
  revert c. induction sched as [|a sched IH]; intros c; [done|].
  simpl. rewrite IH. apply step_length_ws.
Qed.

Section PerWorker.
Variable W : list event → local → Prop.
Hypothesis W_step : ∀ s l ex h,
  W h l →
  W (h ++ option_list (worker_step s l ex).2) (worker_step s l ex).1.2.
Hypothesis W_throw : ∀ s l h, W h l → W h (worker_throw s l).

Lemma per_worker_step c a : per_worker W c → per_worker W (step c a).
Proof.
  intros Hc. destruct a as [j ex| |d|j]; simpl; try done.
  - destruct (ws c !! j) as [lj|] eqn:Hj; [|done].
    pose proof (W_step (sh c) lj ex _ (Hc j lj Hj)) as Hw.
    destruct (worker_step (sh c) lj ex) as [[s l'] e]. simpl in *.
    intros i l Hi. simpl in *. rewrite evs_app.
    destruct (decide (i = j)) as [->|Hne].
    + rewrite list_lookup_insert_eq in Hi by (by eapply lookup_lt_Some).
      injection Hi as <-. by rewrite evs_note_same.
    + rewrite list_lookup_insert_ne in Hi by done.
      rewrite evs_note_other by done. rewrite app_nil_r. by apply Hc.
  - destruct (ws c !! j) as [lj|] eqn:Hj; [|done].
    intros i l Hi. simpl in *.
    destruct (decide (i = j)) as [->|Hne].
    + rewrite list_lookup_insert_eq in Hi by (by eapply lookup_lt_Some).
      injection Hi as <-. by apply W_throw, Hc.
    + rewrite list_lookup_insert_ne in Hi by done. by apply Hc.
Qed.

Lemma per_worker_exec sched c : per_worker W c → per_worker W (exec sched c).
Proof. apply exec_invariant. intros. by apply per_worker_step. Qed.

Lemma per_worker_pool s jobs sched :
  W [] fresh → per_worker W (exec sched (pool s jobs)).
Proof.
  intros H0. apply per_worker_exec. intros i l Hi. simpl in *.
  apply lookup_replicate in Hi as [-> _]. done.
Qed.
End PerWorker.

(** ** The scan *)

Lemma scan_loop_blocked n front rest rg cand :
  group_of (test_name front) ∈ rg →
  scan_loop n (front :: rest) rg cand
  = Some (front :: rest, match n with O => cand | S _ => Some front end).
Proof.
  intros Hin. revert cand. induction n as [|n IH]; intros cand; [done|].
  simpl. rewrite bool_decide_false by (intros Hn; by apply Hn).
  rewrite IH. by destruct n.
Qed.

(** The loop in closed form: it never gets past the front of the queue. *)
Lemma scan_closed q rg :
  scan q rg =
  match q with
  | [] => Some ([], None)
  | front :: rest =>
      if bool_decide (group_of (test_name front) ∉ rg)
      then Some (rest, Some front)
      else Some (front :: rest, Some front)
  end.
Proof.
  destruct q as [|front rest]; [done|]. unfold scan. simpl.
  case_bool_decide as Hg; [done|].
  rewrite scan_loop_blocked by done.
  by destruct (length rest).
Qed.

Lemma scan_no_groups q :
  scan q [] = match q with
              | [] => Some ([], None)
              | front :: rest => Some (rest, Some front)
              end.
Proof.
  rewrite scan_closed. destruct q as [|front rest]; [done|].
  rewrite bool_decide_true; [done|]. apply not_elem_of_nil.
Qed.

(** [test_candidate] is [None] after the loop only when the queue was
    empty, whatever [running_groups] holds. *)
Lemma scan_none_only_empty q rg q' :
  scan q rg = Some (q', None) → q = [] ∧ q' = [].
Proof.
  rewrite scan_closed. destruct q as [|front rest]; [naive_solver|].
  case_bool_decide; naive_solver.
Qed.

(** ** The test of line 242 *)

Lemma wants_retry_true ret t b :
  wants_retry ret t b = true ↔ ret ≠ 0 ∧ 0 < retry t ∧ b = false.
Proof.
  unfold wants_retry.
  rewrite !andb_true_iff, !negb_true_iff, Z.eqb_neq, Z.ltb_lt. tauto.
Qed.

Lemma wants_retry_false ret t b :
  wants_retry ret t b = false ↔ ret = 0 ∨ retry t ≤ 0 ∨ b = true.
Proof.
  unfold wants_retry.
  destruct (Z.eqb_spec ret 0), (Z.ltb_spec 0 (retry t)), b; simpl;
    split; intros; try done; try lia; auto.
  all: destruct_or?; done || lia.
Qed.

(** ** The locals of a worker *)

Lemma scan_total q rg : scan q rg ≠ None.
Proof.
  rewrite scan_closed. destruct q; [done|]. by case_bool_decide.
Qed.

Lemma tidy_step s l ex : tidy l → tidy (worker_step s l ex).1.2.
Proof.
  intros H. destruct l as [p rg tg tc]. unfold worker_step. simpl.
  destruct p; simpl; repeat case_match; unfold tidy in *; simpl in *;
    simplify_eq; try done.
  - by eapply scan_total.
  - destruct H. by repeat split.
  - destruct H as (Hrg & Htg & _). eauto.
  - destruct H as (g' & Hrg & Htg). simplify_eq. simpl in *.
    rewrite decide_True in * by done. by simplify_eq.
  - destruct H as (g' & Hrg & Htg). simplify_eq. simpl in *.
    rewrite decide_True in * by done. by simplify_eq.
  - destruct H as (g' & Hrg & Htg). simplify_eq.
Qed.

Lemma segment_step_other seg e :
  is_claim e = false → seg ≠ [] → segment_step seg e = seg ++ [e].
Proof. intros H Hne. unfold segment_step. rewrite H. by destruct seg. Qed.

Lemma shape_step s l ex h :
  tidy l ∧ shape h l →
  tidy (worker_step s l ex).1.2
  ∧ shape (h ++ option_list (worker_step s l ex).2) (worker_step s l ex).1.2.
Proof.
  intros [Ht Hs]. split; [by apply tidy_step|].
  destruct l as [p rg tg tc]. unfold worker_step. simpl.
  destruct p; simpl; repeat case_match; unfold tidy, shape in *; simpl in *.
  all: rewrite ?app_nil_r, ?count_snoc, ?segment_snoc; simpl.
  all: try done.
  all: rewrite ?Nat.add_0_r.
  all: destruct (decide (segment h = [])) as [Hnil|Hne];
    [ rewrite Hnil in *; simpl in *
    | try rewrite segment_step_other by done;
      rewrite ?count_snoc, ?Forall_app, ?Forall_singleton; simpl;
      rewrite ?Nat.add_0_r ].
  all: unfold segment_step; simpl.
  all: break_hyps; simplify_eq.
  all: try (rewrite decide_True in * by done; simplify_eq).
  all: repeat split; try lia; try done; try (by destruct (segment h)).
  all: try (by left).
  all: try (right; repeat split; try lia; try done).
  all: by repeat eexists; rewrite ?Forall_app, ?Forall_singleton; eauto.
Qed.

(** An exception leaves the worker with the case it had in hand and with
    the history it had. *)
Lemma shape_throw s l h :
  tidy l ∧ shape h l → tidy (worker_throw s l) ∧ shape h (worker_throw s l).
Proof.
  intros [Ht Hs]. destruct l as [p rg tg tc].
  unfold worker_throw, tidy, shape in *. simpl in *.
  destruct p; simpl in *; try (by split); try (by split; [eexists|]).
  - destruct (INTERRUPT s); by split.
  - destruct (wants_retry ret t (INTERRUPT s)); [|by split].
    by split; [eexists|].
Qed.

(** Every worker of a pool is tidy and agrees with its history, whatever
    the schedule. *)
Lemma pool_shape s jobs sched :
  per_worker (λ h l, tidy l ∧ shape h l) (exec sched (pool s jobs)).
Proof.
  apply per_worker_pool.
  - intros. by apply shape_step.
  - intros. by apply shape_throw.
  - split; [done|]. unfold shape. simpl. auto.
Qed.

(** ** The store *)

(** What a step does to the store can be read off its event. *)
Lemma worker_step_store s l ex i :
  let '(s', l', e) := worker_step s l ex in
  results s' = results s ++ rows_of (note i e)
  ∧ cwd s' = last_chdir (note i e) (cwd s)
  ∧ INTERRUPT s' = INTERRUPT s
  ∧ clock s' = clock s
  ∧ (length (running_tests s') + count is_record (option_list e)
     = length (running_tests s) + count is_put (option_list e))%nat
  ∧ (owed l' + length (running_tests s) ≤ owed l + length (running_tests s'))%nat.
Proof.
  destruct l as [p rg tg tc]. unfold worker_step. simpl.
  destruct p; simpl; repeat case_match; simplify_eq; simpl;
    rewrite ?app_nil_r, ?length_app; simpl; repeat split; try done;
    repeat match goal with H : running_tests _ = _ |- _ => rewrite H end;
    simpl; lia.
Qed.

Lemma all_evs_note i e : all_evs (note i e) = option_list e.
Proof. by destruct e. Qed.

Lemma sum_owed_insert (wl : list local) j l l' :
  wl !! j = Some l →
  (sum_list_with owed (<[j := l']> wl) + owed l
   = sum_list_with owed wl + owed l')%nat.
Proof.
  revert j. induction wl as [|x wl IH]; intros j Hj; [done|].
  destruct j as [|j]; simpl in *.
  - injection Hj as ->. lia.
  - specialize (IH j Hj). lia.
Qed.

Lemma owed_le_sum (wl : list local) j l :
  wl !! j = Some l → (owed l ≤ sum_list_with owed wl)%nat.
Proof.
  revert j. induction wl as [|x wl IH]; intros j Hj; [done|].
  destruct j as [|j]; simpl in *.
  - injection Hj as ->. lia.
  - specialize (IH j Hj). lia.
Qed.

Lemma owed_throw s l : owed (worker_throw s l) = owed l.
Proof.
  destruct l as [p rg tg tc]. unfold worker_throw, owed. simpl.
  destruct p; simpl; try done; by repeat case_match.
Qed.

Lemma store_inv_step s0 c a : store_inv s0 c → store_inv s0 (step c a).
Proof.
  intros (Hres & Hcwd & Hlen & Howed).
  destruct a as [j ex| |d|j]; simpl; [|done|done|].
  - destruct (ws c !! j) as [l|] eqn:Hj; [|done].
    pose proof (worker_step_store (sh c) l ex j) as Hstep.
    pose proof (sum_owed_insert (ws c) j l) as Hsum.
    destruct (worker_step (sh c) l ex) as [[s l'] e].
    destruct Hstep as (Hr & Hc & _ & _ & Hl & Ho).
    specialize (Hsum l' Hj).
    unfold store_inv. simpl.
    rewrite rows_of_app, last_chdir_app. unfold all_evs in *.
    rewrite fmap_app, !count_app. fold (all_evs (note j e)).
    rewrite all_evs_note.
    repeat split.
    + rewrite Hr, Hres. by rewrite app_assoc.
    + by rewrite Hc, Hcwd.
    + lia.
    + lia.
  - destruct (ws c !! j) as [l|] eqn:Hj; [|done].
    pose proof (sum_owed_insert (ws c) j l (worker_throw (sh c) l) Hj) as Hsum.
    rewrite owed_throw in Hsum.
    unfold store_inv. simpl. repeat split; try done. lia.
Qed.

(** The store of a pool agrees with its history, whatever the schedule. *)
Lemma pool_store s jobs sched : store_inv s (exec sched (pool s jobs)).
Proof.
  apply exec_invariant; [intros; by apply store_inv_step|].
  unfold store_inv. simpl. rewrite app_nil_r. repeat split; try done.
  assert (sum_list_with owed (replicate jobs fresh) = O) as ->; [|lia].
  induction jobs as [|n IH]; [done|]. simpl. by rewrite IH.
Qed.

(** [self._running_tests.get()] of line 250 never finds the queue empty. *)
Lemma record_never_blocks s jobs sched i l t line :
  ws (exec sched (pool s jobs)) !! i = Some l →
  l_pc l = Finish t line →
  running_tests (sh (exec sched (pool s jobs))) ≠ [].
Proof.
  intros Hi Hpc.
  destruct (pool_store s jobs sched) as (_ & _ & _ & Howed).
  pose proof (owed_le_sum _ _ _ Hi) as Hle.
  assert (owed l = 1%nat) as Ho by (unfold owed; by rewrite Hpc).
  intros Hnil. rewrite Hnil in Howed. simpl in Howed. lia.
Qed.

(** A worker inside [_run_test] gets nearer to its end with every step it
    takes, whatever the exit codes and whatever the other workers do: an
    attempt is at most six steps, a retry takes one from [retry], and the
    lock block of lines 249-253 is never held up. *)
Lemma case_in_hand_advances s jobs sched i l ex :
  let c := exec sched (pool s jobs) in
  ws c !! i = Some l →
  is_Some (in_run (l_pc l)) →
  (∀ e held, l_pc l ≠ Raised e held) →
  (steps_left (l_pc (worker_step (sh c) l ex).1.2) < steps_left (l_pc l))%nat.
Proof.
  intros c Hi Hrun Hlive.
  pose proof (record_never_blocks s jobs sched i l) as Hnb. fold c in Hnb.
  unfold worker_step.
  destruct (l_pc l) eqn:Hpc; simpl in *; try (by destruct Hrun); try lia.
  - destruct (INTERRUPT (sh c)); simpl; lia.
  - destruct ret; simpl; lia.
  - destruct (wants_retry ret t (INTERRUPT (sh c))) eqn:Hw; simpl; [|lia].
    apply wants_retry_true in Hw as (_ & Hretry & _).
    replace (Z.to_nat (retry t - 1)) with (Z.to_nat (retry t) - 1)%nat by lia.
    lia.
  - destruct (running_tests (sh c)) eqn:Hq; [|simpl; lia].
    by destruct (Hnb t line Hi eq_refl).
  - by destruct (Hlive e held).
Qed.

(** A case with two retries whose process always fails is attempted three
    times and leaves one line, with the status [Failed]; the two entries
    of its first attempts stay in [_running_tests]. *)
Example three_attempts_one_line :
  results (sh always_failing) = [mkRow "A.t1" "Failed" 0 "/out/A.t1/run.log"]
  ∧ count is_put (evs 0 (hist always_failing)) = 3%nat
  ∧ running_tests (sh always_failing) = ["A.t1"; "A.t1"]
  ∧ pc_of always_failing 0 = Some LoopTop
  ∧ finished (sh always_failing) = 1%nat.
Proof. repeat split; reflexivity. Qed.

(** ** The groups *)

(** When a worker scans the queue its [running_groups] is empty: the list is
    a local of [_schedule_tests] (line 256), filled at line 278 and emptied at
    line 282 of the same iteration, so no worker sees the group of another. *)
Lemma scan_sees_no_group s jobs sched i l :
  ws (exec sched (pool s jobs)) !! i = Some l →
  l_pc l = Scan →
  running_groups l = [].
Proof.
  intros Hi Hpc. destruct (pool_shape s jobs sched i l Hi) as [Ht _].
  unfold tidy in Ht. by rewrite Hpc in Ht.
Qed.

(** So in every run the scan of every worker takes the case at the front of
    the queue, whatever its group and whatever the other workers execute. *)
Lemma scan_takes_the_front s jobs sched i l ex :
  let c := exec sched (pool s jobs) in
  ws c !! i = Some l →
  l_pc l = Scan →
  worker_step (sh c) l ex
  = (set_tests (tail (tests (sh c))) (sh c),
     mkLocal CheckCand [] (test_group l) (head (tests (sh c))),
     Some (EvScan (head (tests (sh c))))).
Proof.
  intros c Hi Hpc.
  pose proof (scan_sees_no_group s jobs sched i l Hi Hpc) as Hrg.
  unfold worker_step. rewrite Hpc, Hrg, scan_no_groups.
  fold c. by destruct (tests (sh c)).
Qed.

(** C1, evaluated on the code.  Two workers and the queue [A.t1; A.t2]:
    worker 0 takes [A.t1] and starts its process, then worker 1 takes [A.t2]
    and starts its process, so two cases of the group [A] execute at once. *)
Theorem C1_two_cases_of_a_group_at_once :
  executing_at both_launched 0 = Some (case "A.t1" 0)
  ∧ executing_at both_launched 1 = Some (case "A.t2" 0)
  ∧ ¬ one_case_per_group both_launched.
Proof.
  split; [done|]. split; [done|].
  intros H. by apply (H 0%nat 1%nat (case "A.t1" 0) (case "A.t2" 0)).
Qed.

(** C2, evaluated on the code.  While worker 0 executes [A.t1], the scan of
    worker 1 takes [A.t2] off the queue although the group [A] is active;
    and were the group in [running_groups], the loop would look at the front
    of the queue again and again and leave with the front as the candidate,
    the queue as it was and [B.t1] never looked at. *)
Theorem C2_scan_takes_the_front :
  executing_at one_launched 0 = Some (case "A.t1" 0)
  ∧ tests (sh one_launched) = [case "A.t2" 0]
  ∧ hist (exec (steps 1 3) one_launched)
    = hist one_launched ++ [(1%nat, EvScan (Some (case "A.t2" 0)))]
  ∧ tests (sh (exec (steps 1 3) one_launched)) = []
  ∧ scan [case "A.t1" 0; case "B.t1" 0] ["A"]
    = Some ([case "A.t1" 0; case "B.t1" 0], Some (case "A.t1" 0))
  ∧ scan suite_A ["A"] = Some (suite_A, Some (case "A.t1" 0)).
Proof. repeat split; reflexivity. Qed.


(** ** One attempt *)

(** C6, as the code has it.  The code [ret] that line 242 and line 247 see
    is the exit code of the child process only when [INTERRUPT] was not set
    at line 236; when it was set, [ret] is [-SIGINT] whatever exit code the
    process has when the [with] block is left.  From the moment line 242
    finds the attempt final: after the next two steps of the worker,
    whatever happens to the store in between, the line it is about to write
    has the name of the case and the status [Passed] for [ret = 0],
    [Killed] for [-SIGINT] and [Failed] for every other [ret]; and the lock
    block of lines 249-253 appends that line to [self.results]. *)
Theorem C6_status_of_the_exit_code s l ex t start :
  l_pc l = Launched t start →
  let l1 := (worker_step s l ex).1.2 in
  (INTERRUPT s = false → l_pc l1 = CheckRetry t start ex)
  ∧ (INTERRUPT s = true →
     l_pc l1 = Exiting t start (Some (- SIGINT))
     ∧ ∀ s1 code,
         l_pc (worker_step s1 l1 code).1.2 = CheckRetry t start (- SIGINT)
         ∧ (worker_step s1 l1 code).2 = Some (EvExit code))
  ∧ ∀ ret l2 s2 ex2,
      l_pc l2 = CheckRetry t start ret →
      wants_retry ret t (INTERRUPT s2) = false →
      let l3 := (worker_step s2 l2 ex2).1.2 in
      l_pc l3 = Timing t start ret
      ∧ ∀ s3 ex3, ∃ line,
          let l4 := (worker_step s3 l3 ex3).1.2 in
          l_pc l4 = Finish t line
          ∧ Test line = test_name t
          ∧ (ret = 0 → Status line = "Passed")
          ∧ (ret = - SIGINT → Status line = "Killed")
          ∧ (ret ≠ 0 → ret ≠ - SIGINT → Status line = "Failed")
          ∧ ∀ s4 ex4, running_tests s4 ≠ [] →
              results (worker_step s4 l4 ex4).1.1 = results s4 ++ [line].
Proof.
  intros Hpc l1.
  split; [intros Hint; unfold l1, worker_step; by rewrite Hpc, Hint|].
  split.
  { intros Hint.
    assert (l1 = goto (Exiting t start (Some (- SIGINT))) l) as ->.
    { unfold l1, worker_step. by rewrite Hpc, Hint. }
    split; [done|]. intros s1 code. by unfold worker_step. }
  intros ret l2 s2 ex2 Hpc2 Hw l3.
  assert (l3 = goto (Timing t start ret) l2) as ->.
  { unfold l3, worker_step. by rewrite Hpc2, Hw. }
  split; [done|]. intros s3 ex3. eexists. simpl.
  split; [reflexivity|]. simpl. unfold status_of.
  split; [done|]. split; [by intros ->|]. split; [by intros ->|].
  split.
  - intros H0 H1. rewrite (proj2 (Z.eqb_neq _ _) H0).
    by rewrite (proj2 (Z.eqb_neq _ _) H1).
  - intros s4 ex4 Hne. unfold worker_step. simpl.
    by destruct (running_tests s4).
Qed.

(** C7, as the code has it.  The step after the launch of the child
    process changes nothing in the store.  With [INTERRUPT] set it signals
    the process and takes [-SIGINT] as the code of the attempt, but the
    worker does not go on to line 242: it is at the end of the [with] block
    of line 235, where [Popen.__exit__] waits, and it gets to line 242 only
    with the step in which the process ends, whose exit code is dropped.
    Where [send_signal(SIGINT)] raises, as it does on Windows, no signal is
    sent, the worker waits for the process all the same, and the
    [ValueError] then leaves [_schedule_tests].  With [INTERRUPT] not set the
    step is the return of [process.wait()] with the exit code of the
    process. *)
Theorem C7_interrupt_seen_after_launch s l ex t start :
  l_pc l = Launched t start →
  (worker_step s l ex).1.1 = s
  ∧ (INTERRUPT s = true →
     (worker_step s l ex).2 = Some (EvSignal SIGINT)
     ∧ l_pc (worker_step s l ex).1.2 = Exiting t start (Some (- SIGINT))
     ∧ l_pc (worker_throw s l) = Exiting t start None)
  ∧ (∀ s1 l1 code ret, l_pc l1 = Exiting t start ret →
     (worker_step s1 l1 code).1.1 = s1
     ∧ (worker_step s1 l1 code).2 = Some (EvExit code)
     ∧ l_pc (worker_step s1 l1 code).1.2
       = match ret with
         | Some r => CheckRetry t start r
         | None => Raised SignalError (Some t)
         end
     ∧ worker_throw s1 l1 = l1)
  ∧ (INTERRUPT s = false →
     (worker_step s l ex).2 = Some (EvWait ex)
     ∧ l_pc (worker_step s l ex).1.2 = CheckRetry t start ex
     ∧ worker_throw s l = l)
  ∧ ∀ s0 l0 ex0, l_pc l0 = Launch t →
      l_pc (worker_step s0 l0 ex0).1.2 = Launched t (clock s0)
      ∧ (worker_step s0 l0 ex0).2 = Some (EvLaunch t (log_of t)).
Proof.
  intros Hpc. unfold worker_step, worker_throw. rewrite Hpc.
  split; [by destruct (INTERRUPT s)|].
  split; [by intros ->|].
  split; [intros s1 l1 code ret Hpc1; rewrite Hpc1; by destruct ret|].
  split; [by intros ->|].
  intros s0 l0 ex0 Hpc0. by rewrite Hpc0.
Qed.

(** ** Cancellation before the first claim *)

Lemma halted_step s c a : halted s c → halted s (step c a).
Proof.
  intros (Hq & Hr & Hf & Hres & Hcwd & Hint & Hws & Hh).
  destruct a as [i ex| |d|i]; simpl; [|done|done|].
  - destruct (ws c !! i) as [l|] eqn:Hi; [|done].
    destruct (Forall_lookup_1 _ _ _ _ Hws Hi) as [-> | ->].
    + unfold worker_step. simpl. rewrite Hint. simpl.
      repeat split; try done.
      * apply Forall_insert; [done | by right].
      * apply Forall_app. split; [done | by apply Forall_singleton].
    + unfold worker_step. simpl. rewrite app_nil_r.
      repeat split; try done.
      apply Forall_insert; [done | by right].
  - destruct (ws c !! i) as [l|] eqn:Hi; [|done].
    destruct (Forall_lookup_1 _ _ _ _ Hws Hi) as [-> | ->];
      unfold worker_throw; simpl; repeat split; try done;
      apply Forall_insert; auto.
Qed.

Lemma halted_stays_stopped s c a i :
  halted s c → pc_of c i = Some Stopped → pc_of (step c a) i = Some Stopped.
Proof.
  intros Hc Hi. destruct a as [j ex| |d|j]; simpl; [|done|done|].
  - destruct (ws c !! j) as [l|] eqn:Hj; [|done].
    destruct (decide (i = j)) as [->|Hne].
    + unfold pc_of in *. rewrite Hj in Hi. simpl in Hi. injection Hi as Hpc.
      unfold worker_step. rewrite Hpc. simpl.
      rewrite list_lookup_insert_eq by (by eapply lookup_lt_Some).
      simpl. by rewrite Hpc.
    + destruct (worker_step (sh c) l ex) as [[s' l'] e]. unfold pc_of in *.
      simpl. by rewrite list_lookup_insert_ne.
  - destruct (ws c !! j) as [l|] eqn:Hj; [|done].
    destruct (decide (i = j)) as [->|Hne].
    + unfold pc_of in *. rewrite Hj in Hi. simpl in Hi. injection Hi as Hpc.
      unfold worker_throw. rewrite Hpc. simpl.
      rewrite list_lookup_insert_eq by (by eapply lookup_lt_Some).
      simpl. by rewrite Hpc.
    + unfold pc_of in *. simpl. by rewrite list_lookup_insert_ne.
Qed.

Lemma halted_first_step s c i ex :
  halted s c → (i < length (ws c))%nat →
  pc_of (step c (Work i ex)) i = Some Stopped.
Proof.
  intros Hc Hi. pose proof Hc as (_ & _ & _ & _ & _ & Hint & Hws & _).
  destruct (lookup_lt_is_Some_2 _ _ Hi) as [l Hl].
  simpl. rewrite Hl.
  destruct (Forall_lookup_1 _ _ _ _ Hws Hl) as [-> | ->].
  - unfold worker_step. simpl. rewrite Hint. unfold pc_of. simpl.
    by rewrite list_lookup_insert_eq.
  - unfold worker_step, pc_of. simpl. by rewrite list_lookup_insert_eq.
Qed.

Lemma halted_exec s sched c : halted s c → halted s (exec sched c).
Proof. apply exec_invariant. intros. by apply halted_step. Qed.

Lemma halted_stops s sched i ex : ∀ c,
  halted s c → (i < length (ws c))%nat →
  Work i ex ∈ sched ∨ pc_of c i = Some Stopped →
  pc_of (exec sched c) i = Some Stopped.
Proof.
  induction sched as [|a sched IH]; intros c Hc Hi Hor.
  - destruct Hor as [Hin|Hpc]; [by apply elem_of_nil in Hin | done].
  - simpl. apply IH.
    + by apply halted_step.
    + by rewrite step_length_ws.
    + destruct Hor as [Hin|Hpc].
      * apply elem_of_cons in Hin as [<-|Hin]; [right|by left].
        by eapply halted_first_step.
      * right. by eapply halted_stays_stopped.
Qed.

(** C8, as the code has it.  A pool started with [INTERRUPT] set, so that
    the flag is up before any worker has made its check of line 260:
    whatever the schedule, the queue, the store and [self.results] stay as
    they were, no worker does anything but leave the loop at line 261, and a
    worker that has taken a step has left.  With [self.results] empty at the
    start, it is empty at the end. *)
Theorem C8_interrupt_before_any_claim s jobs sched :
  INTERRUPT s = true →
  results s = [] →
  let c := exec sched (pool s jobs) in
  results (sh c) = []
  ∧ tests (sh c) = tests s
  ∧ running_tests (sh c) = running_tests s
  ∧ Forall (λ l, l = fresh ∨ l = stopped_at_once) (ws c)
  ∧ Forall (λ x, x.2 = EvBreakInterrupt) (hist c)
  ∧ ∀ i ex, (i < jobs)%nat → Work i ex ∈ sched → pc_of c i = Some Stopped.
Proof.
  intros Hint Hres c.
  assert (halted s (pool s jobs)) as H0.
  { unfold halted. simpl. repeat split; try done.
    apply Forall_replicate. by left. }
  pose proof (halted_exec s sched _ H0) as (Hq & Hr & _ & Hres' & _ & _ & Hws & Hh).
  fold c in Hq, Hr, Hres', Hws, Hh.
  repeat split; try done.
  - by rewrite Hres'.
  - intros i ex Hi Hin. eapply halted_stops; eauto.
    simpl. by rewrite length_replicate.
Qed.

(** ** The current directory *)

Lemma resolve_absolute d p : is_absolute p = true → resolve d p = p.
Proof. intros Hp. unfold resolve. by rewrite Hp. Qed.

Lemma last_chdir_snoc h x d :
  last_chdir (h ++ [x]) d
  = match x.2 with
    | EvChdir t => resolve (last_chdir h d) (working_dir t)
    | _ => last_chdir h d
    end.
Proof. unfold last_chdir. by rewrite fold_left_app. Qed.

Lemma last_started_snoc h x t0 :
  last_started (h ++ [x]) t0
  = match x.2 with
    | EvChdir t => Some t
    | _ => last_started h t0
    end.
Proof. unfold last_started. by rewrite fold_left_app. Qed.

Lemma last_chdir_started h d :
  match last_started h None with
  | Some t => is_absolute (working_dir t) = true → last_chdir h d = working_dir t
  | None => last_chdir h d = d
  end.
Proof.
  induction h as [|[i e] h IH] using rev_ind; [done|].
  rewrite last_chdir_snoc, last_started_snoc. simpl.
  destruct e; try done. apply resolve_absolute.
Qed.

(** C9.  At every moment of every run the current directory of the process
    is where the calls of [os.chdir] (line 229) have led, on whichever
    worker and whether or not their cases are over: each call is looked up
    in the directory that the call before it has left, and nothing else
    changes the directory, so it is never put back.  With an absolute
    working directory that is the working directory of the case that was
    the latest to reach [os.chdir]; it is the directory the pool started in
    only while no case has got there.  The relative paths of every worker
    are looked up there: the directory of its own [os.chdir] and the log
    file that it opens at line 234. *)
Theorem C9_cwd_is_the_latest_chdir s jobs sched :
  let c := exec sched (pool s jobs) in
  let dir := last_chdir (hist c) (cwd s) in
  cwd (sh c) = dir
  ∧ (∀ t, last_started (hist c) None = Some t →
       is_absolute (working_dir t) = true → dir = working_dir t)
  ∧ (last_started (hist c) None = None → dir = cwd s)
  ∧ ∀ i l t ex, ws c !! i = Some l →
      (l_pc l = Chdir t →
       cwd (sh (step c (Work i ex))) = resolve dir (working_dir t))
      ∧ (l_pc l = Launch t →
         cwd (sh (step c (Work i ex))) = dir
         ∧ opened (sh (step c (Work i ex)))
           = opened (sh c) ++ [resolve dir (log_of t)]).
Proof.
  intros c dir.
  assert (cwd (sh c) = dir) as Hcwd.
  { by destruct (pool_store s jobs sched) as (_ & Hc & _). }
  pose proof (last_chdir_started (hist c) (cwd s)) as Hlast. fold dir in Hlast.
  split; [done|]. split; [|split].
  - intros t Ht Habs. rewrite Ht in Hlast. by apply Hlast.
  - intros Hnone. by rewrite Hnone in Hlast.
  - intros i l t ex Hi. simpl. rewrite Hi. unfold worker_step.
    split; intros Hpc; rewrite Hpc; simpl; by rewrite Hcwd.
Qed.

(** The directory is shared and [os.chdir] is outside the lock: worker 0
    changes to the directory of [A.t1], worker 1 to that of [A.t2], and
    worker 0 then starts the process of [A.t1] in the directory of [A.t2]. *)
Example cwd_of_another_case :
  let c := exec (steps 0 6 ++ steps 1 6 ++ steps 0 1)
                (pool (start_store suite_A "/") 2) in
  executing_at c 0 = Some (case "A.t1" 0)
  ∧ cwd (sh c) = working_dir (case "A.t2" 0).
Proof. split; reflexivity. Qed.

(** With a relative [--output] every path of the cases is relative: the
    directory of [A.t2] is looked up in the directory of [A.t1], and worker 0
    then looks for the log of [A.t1] below the directory of [A.t2].
    Line 234 opens it there if the file system has that directory, and
    raises [FileNotFoundError] if it has not, which ends the worker. *)
Example log_below_another_case :
  let c := exec (steps 0 6 ++ steps 1 6)
                (pool (start_store [relative_case "A.t1"; relative_case "A.t2"]
                                   "/home") 2) in
  cwd (sh c) = "/home/out/A.t1/out/A.t2"
  ∧ pc_of c 0 = Some (Launch (relative_case "A.t1"))
  ∧ opened (sh (step c (Work 0 0)))
    = ["/home/out/A.t1/out/A.t2/out/A.t1/run.log"]
  ∧ pc_of (step c (Throw 0)) 0
    = Some (Raised OSError (Some (relative_case "A.t1"))).
Proof. repeat split; reflexivity. Qed.

(** ** One line for each case *)

(** C3, as the code has it.  In every run, [self.results] is what it was at
    the start followed by the lines of the lock blocks of lines 249-253, in
    the order of the blocks.  For every worker: each case it has claimed has
    one line, but for the case in hand (or the case that an exception has
    taken out of its hands), which has none; since its latest
    claim it has written at most one line, however many attempts there were;
    it has released a group only after writing the line of the case, so it
    never has more releases than lines; and when it stands at line 281, the
    line of the case is written and the group is still in [running_groups].
    The lock block is never held up by an empty [_running_tests]. *)
Theorem C3_one_line_then_release s jobs sched i l :
  let c := exec sched (pool s jobs) in
  ws c !! i = Some l →
  let h := evs i (hist c) in
  results (sh c) = results s ++ rows_of (hist c)
  ∧ count is_claim h
    = (count is_record h + if in_run (l_pc l) is Some _ then 1 else 0)%nat
  ∧ (count is_record (segment h) ≤ 1)%nat
  ∧ (count is_release h ≤ count is_record h ≤ count is_release h + 1)%nat
  ∧ (l_pc l = Release →
     count is_record (segment h) = 1%nat
     ∧ count is_release (segment h) = O
     ∧ ∃ g, running_groups l = [g] ∧ test_group l = Some g)
  ∧ (∀ t line, l_pc l = Finish t line →
     running_tests (sh c) ≠ []
     ∧ Test line = test_name t
     ∧ count is_record (segment h) = O).
Proof.
  intros c Hi h.
  destruct (pool_store s jobs sched) as (Hres & _).
  destruct (pool_shape s jobs sched i l Hi) as [Ht Hs].
  pose proof (record_never_blocks s jobs sched i l) as Hnb.
  fold c in Hres, Hs, Hnb. fold h in Hs.
  split; [done|]. clearbody h c. unfold shape, tidy in *.
  destruct (l_pc l) as [| | | |t|t|t|t st|t st o|t st r|t st r|t ln| | |err held]
    eqn:Hpc; simpl in *.
  all: try (destruct held; destruct err; simpl in * ).
  all: break_hyps.
  all: repeat match goal with H : segment _ = [] |- _ => rewrite H end.
  all: simpl; repeat split; try lia; try done; eauto.
  all: by simplify_eq.
Qed.

(** ** The queue of running tests *)

(** C10, as the code has it.  Every attempt puts the name of the case at the
    back of [_running_tests] and only the lock block of lines 249-253 takes
    an entry out, the one at the front.  So for every worker, among its
    events since its latest claim, the [put]s are one more than the retries
    (as many in the step between line 243 and line 226), all of them with
    the name of the case, and there is one removal once the case is over and
    none before.  In every run the length of the queue is what it was at the
    start, plus all the [put]s, minus all the removals. *)
Theorem C10_puts_exceed_removals_by_retries s jobs sched i l :
  let c := exec sched (pool s jobs) in
  ws c !! i = Some l →
  let seg := segment (evs i (hist c)) in
  (seg ≠ [] →
   count is_put seg
   = (count is_retry seg + if l_pc l is RunEnter _ then 0 else 1)%nat
   ∧ count is_record seg = if in_run (l_pc l) is Some _ then O else 1%nat)
  ∧ (∃ name, Forall (of_case name) seg)
  ∧ (length (running_tests (sh c)) + count is_record (all_evs (hist c))
     = length (running_tests s) + count is_put (all_evs (hist c)))%nat
  ∧ (∀ s1 l1 ex t, l_pc l1 = RunEnter t →
     running_tests (worker_step s1 l1 ex).1.1 = running_tests s1 ++ [test_name t]
     ∧ (worker_step s1 l1 ex).2 = Some (EvPut (test_name t)))
  ∧ (∀ s1 l1 ex t line front rest,
     l_pc l1 = Finish t line → running_tests s1 = front :: rest →
     running_tests (worker_step s1 l1 ex).1.1 = rest
     ∧ (worker_step s1 l1 ex).2 = Some (EvRecord line)).
Proof.
  intros c Hi seg.
  destruct (pool_store s jobs sched) as (_ & _ & Hlen & _).
  destruct (pool_shape s jobs sched i l Hi) as [_ Hs].
  fold c in Hlen, Hs. unfold shape in Hs. fold seg in Hs.
  clearbody seg c.
  split; [|split; [|split; [done|split]]].
  - intros Hne.
    destruct (l_pc l) as [| | | |t|t|t|t st|t st o|t st r|t st r|t ln| |
                          |err [held|]];
      simpl in *; break_hyps; try done; split; lia.
  - destruct (l_pc l) as [| | | |t|t|t|t st|t st o|t st r|t st r|t ln| |
                          |err [held|]];
      simpl in *; break_hyps; subst;
      first [ by exists EmptyString | by eexists ].
  - intros s1 l1 ex t Hpc. unfold worker_step. by rewrite Hpc.
  - intros s1 l1 ex t line front rest Hpc Hq. unfold worker_step.
    by rewrite Hpc, Hq.
Qed.

(** ** Running a case again *)

Lemma step_work_at c i l ex s' l' e :
  ws c !! i = Some l →
  worker_step (sh c) l ex = (s', l', e) →
  step c (Work i ex) = mkConfig s' (<[i := l']> (ws c)) (hist c ++ note i e).
Proof. intros Hi Hstep. simpl. by rewrite Hi, Hstep. Qed.

Lemma step_at_insert s wl h i l ex s' l' e :
  (i < length wl)%nat →
  worker_step s l ex = (s', l', e) →
  step (mkConfig s (<[i := l]> wl) h) (Work i ex)
  = mkConfig s' (<[i := l']> wl) (h ++ note i e).
Proof.
  intros Hi Hstep. simpl. rewrite list_lookup_insert_eq by done.
  by rewrite Hstep, list_insert_insert_eq.
Qed.

(** C4, as the code has it.  The step of line 242 changes nothing in the
    store and nothing in [running_groups].  It runs the case again exactly
    when the exit code is not 0, a retry is left and [INTERRUPT] is not set,
    be the exit code [-SIGINT] or any other; it makes the attempt final
    exactly when the exit code is 0, or no retry is left, or [INTERRUPT] is
    set.  The new attempt has one retry less and the same log file, and the
    next three steps of the worker put the name in [_running_tests], change
    the directory and open that log and start the process, with the queue,
    the results and the group of the worker as they were. *)
Theorem C4_rerun_iff_nonzero_exit c i l t start ret ex :
  ws c !! i = Some l →
  l_pc l = CheckRetry t start ret →
  let c1 := step c (Work i ex) in
  let rerun := pc_of c1 i = Some (RunEnter (retry_of t)) in
  let final := pc_of c1 i = Some (Timing t start ret) in
  sh c1 = sh c
  ∧ (running_groups <$> ws c1 !! i) = Some (running_groups l)
  ∧ (rerun ↔ ret ≠ 0 ∧ 0 < retry t ∧ INTERRUPT (sh c) = false)
  ∧ (final ↔ ret = 0 ∨ retry t ≤ 0 ∨ INTERRUPT (sh c) = true)
  ∧ retry (retry_of t) = retry t - 1
  ∧ log_of (retry_of t) = log_of t
  ∧ (rerun → ∀ ex1 ex2 ex3,
       let c4 := exec [Work i ex1; Work i ex2; Work i ex3] c1 in
       hist c4 = hist c ++ [(i, EvRetry (retry_of t)); (i, EvPut (test_name t));
                            (i, EvChdir (retry_of t));
                            (i, EvLaunch (retry_of t) (log_of t))]
       ∧ pc_of c4 i = Some (Launched (retry_of t) (clock (sh c)))
       ∧ tests (sh c4) = tests (sh c)
       ∧ results (sh c4) = results (sh c)
       ∧ (running_groups <$> ws c4 !! i) = Some (running_groups l)).
Proof.
  intros Hi Hpc c1 rerun final.
  pose proof (lookup_lt_Some _ _ _ Hi) as Hlt.
  destruct (wants_retry ret t (INTERRUPT (sh c))) eqn:Hw.
  - assert (c1 = mkConfig (sh c) (<[i := goto (RunEnter (retry_of t)) l]> (ws c))
                  (hist c ++ [(i, EvRetry (retry_of t))])) as Hc1.
    { unfold c1.
      apply (step_work_at c i l ex _ _ (Some (EvRetry (retry_of t)))); [done|].
      unfold worker_step. by rewrite Hpc, Hw. }
    assert (rerun) as Hrerun.
    { unfold rerun, pc_of. rewrite Hc1. simpl.
      by rewrite list_lookup_insert_eq. }
    apply wants_retry_true in Hw. pose proof Hw as (Hret & Hretry & Hint).
    split; [by rewrite Hc1|].
    split; [rewrite Hc1; simpl; by rewrite list_lookup_insert_eq|].
    split; [done|].
    split.
    { unfold final. rewrite Hrerun.
      split; [done|]. intros [?|[?|?]]; [done | lia | congruence]. }
    split; [done|]. split; [done|].
    intros _ ex1 ex2 ex3 c4. unfold c4.
    change (exec [Work i ex1; Work i ex2; Work i ex3] c1)
      with (step (step (step c1 (Work i ex1)) (Work i ex2)) (Work i ex3)).
    rewrite Hc1.
    do 3 (erewrite step_at_insert; [|done|reflexivity]).
    unfold pc_of. simpl. rewrite list_lookup_insert_eq by done. simpl.
    by rewrite <- !app_assoc.
  - assert (c1 = mkConfig (sh c) (<[i := goto (Timing t start ret) l]> (ws c))
                  (hist c ++ [(i, EvFinal t ret)])) as Hc1.
    { unfold c1.
      apply (step_work_at c i l ex _ _ (Some (EvFinal t ret))); [done|].
      unfold worker_step. by rewrite Hpc, Hw. }
    assert (final) as Hfinal.
    { unfold final, pc_of. rewrite Hc1. simpl.
      by rewrite list_lookup_insert_eq. }
    apply wants_retry_false in Hw.
    split; [by rewrite Hc1|].
    split; [rewrite Hc1; simpl; by rewrite list_lookup_insert_eq|].
    split.
    { unfold rerun. rewrite Hfinal. split; [done|].
      intros (Hret & Hretry & Hint).
      destruct Hw as [?|[?|?]]; [done | lia | congruence]. }
    split; [done|]. split; [done|]. split; [done|].
    unfold rerun. by rewrite Hfinal.
Qed.

(** * Examples *)

(** C3 as the specification states it fails.  One worker, one case that
    passes at once: after the lock block of lines 249-253 the line of [A.t1]
    is in [self.results] and the group [A] is still in [running_groups];
    line 282 has not run yet. *)
Lemma C3_line_written_before_release :
  results (sh line_written) = [mkRow "A.t1" "Passed" 0 "/out/A.t1/run.log"]
  ∧ ws line_written !! 0%nat = Some (inside Release)
  ∧ ¬ released_first line_written.
Proof.
  split; [reflexivity|]. split; [reflexivity|].
  intros H. specialize (H 0%nat). vm_compute in H. lia.
Qed.

(** The theorem of C3 on the run [line_written]. *)
Lemma C3_witness :
  let c := exec (steps 0 11) (pool (start_store [case "A.t1" 0] "/") 1) in
  let h := evs 0 (hist c) in
  ws c !! 0%nat = Some (inside Release)
  ∧ results (sh c) = rows_of (hist c)
  ∧ count is_claim h = count is_record h
  ∧ count is_record (segment h) = 1%nat
  ∧ count is_release (segment h) = O
  ∧ ∃ g, running_groups (inside Release) = [g].
Proof.
  intros c h.
  assert (ws c !! 0%nat = Some (inside Release)) as Hl by reflexivity.
  split; [exact Hl|].
  destruct (C3_one_line_then_release (start_store [case "A.t1" 0] "/") 1
              (steps 0 11) 0 (inside Release) Hl)
    as (Hres & Hclaim & _ & _ & Hrel & _).
  destruct (Hrel eq_refl) as (Hrec & Hnone & g & Hg & _).
  split; [exact Hres|]. split; [unfold h, c; rewrite Hclaim; simpl; lia|].
  split; [exact Hrec|]. split; [exact Hnone|]. by exists g.
Defined.

(** C4 as the specification states it fails.  The process of the first
    attempt of [A.t1] is killed by a SIGINT from outside, [INTERRUPT] is not
    set and one retry is left: the status of the exit code is [Killed], not
    [Failed], and the case is run again. *)
Lemma C4_killed_case_is_rerun :
  pc_of killed_from_outside 0 = Some (CheckRetry (case "A.t1" 1) 0 (- SIGINT))
  ∧ INTERRUPT (sh killed_from_outside) = false
  ∧ status_of (- SIGINT) = "Killed"
  ∧ pc_of (step killed_from_outside (Work 0 0)) 0
    = Some (RunEnter (retry_of (case "A.t1" 1)))
  ∧ ¬ rerun_iff_failed killed_from_outside 0 (case "A.t1" 1) (- SIGINT).
Proof.
  split; [reflexivity|]. split; [reflexivity|]. split; [reflexivity|].
  split; [reflexivity|].
  intros [H _]. destruct (H eq_refl) as [Hs _]. discriminate Hs.
Qed.

(** The theorem of C4 on the run [killed_from_outside]. *)
Lemma C4_witness :
  let l := mkLocal (CheckRetry (case "A.t1" 1) 0 (- SIGINT)) ["A"] (Some "A")
                   (Some (case "A.t1" 1)) in
  ws killed_from_outside !! 0%nat = Some l
  ∧ l_pc l = CheckRetry (case "A.t1" 1) 0 (- SIGINT)
  ∧ pc_of (step killed_from_outside (Work 0 0)) 0
    = Some (RunEnter (retry_of (case "A.t1" 1)))
  ∧ pc_of (exec (steps 0 3) (step killed_from_outside (Work 0 0))) 0
    = Some (Launched (retry_of (case "A.t1" 1)) 0).
Proof.
  intros l.
  assert (ws killed_from_outside !! 0%nat = Some l) as Hl by reflexivity.
  split; [exact Hl|]. split; [reflexivity|].
  destruct (C4_rerun_iff_nonzero_exit killed_from_outside 0 l
              (case "A.t1" 1) 0 (- SIGINT) 0 Hl eq_refl)
    as (_ & _ & Hrerun & _ & _ & _ & Hnext).
  assert (pc_of (step killed_from_outside (Work 0 0)) 0
          = Some (RunEnter (retry_of (case "A.t1" 1)))) as Hpc.
  { apply Hrerun. split; [discriminate | split; reflexivity]. }
  split; [exact Hpc|].
  destruct (Hnext Hpc 0 0 0) as (_ & Hlaunched & _). exact Hlaunched.
Defined.


(** C6 as the specification states it fails.  The worker has passed line
    260 when [INTERRUPT] is set; it claims [A.t1], starts its process and
    signals it at line 237.  The process ends with the exit code 0, and the
    line of the case says [Killed], not [Passed]. *)
Lemma C6_clean_exit_recorded_killed :
  let c := exec (steps 0 11) signal_after_check in
  hist c !! 6%nat = Some (0%nat, EvExit 0)
  ∧ child_code (segment (evs 0 (hist c))) = Some 0
  ∧ status_of 0 = "Passed"
  ∧ results (sh c) = [mkRow "A.t1" "Killed" 0 "/out/A.t1/run.log"]
  ∧ ¬ status_of_the_child c 0.
Proof.
  intros c. split; [reflexivity|]. split; [reflexivity|].
  split; [reflexivity|]. split; [reflexivity|].
  intros H.
  specialize (H (mkRow "A.t1" "Killed" 0 "/out/A.t1/run.log") 0).
  assert (segment (evs 0 (hist c)) !! 7%nat
          = Some (EvRecord (mkRow "A.t1" "Killed" 0 "/out/A.t1/run.log")))
    as Hin by reflexivity.
  apply list_elem_of_lookup_2 in Hin.
  specialize (H Hin eq_refl). discriminate H.
Qed.

(** The theorem of C6 on an attempt whose process exits with 1. *)
Lemma C6_witness :
  let l := inside (Launched (case "A.t1" 0) 0) in
  let s := start_store [] "/" in
  l_pc l = Launched (case "A.t1" 0) 0
  ∧ INTERRUPT s = false
  ∧ l_pc (worker_step s l 1).1.2 = CheckRetry (case "A.t1" 0) 0 1
  ∧ wants_retry 1 (case "A.t1" 0) (INTERRUPT s) = false
  ∧ ∃ line,
      l_pc (worker_step s (worker_step s (worker_step s l 1).1.2 0).1.2 0).1.2
      = Finish (case "A.t1" 0) line
      ∧ Status line = "Failed".
Proof.
  intros l s. split; [reflexivity|]. split; [reflexivity|].
  destruct (C6_status_of_the_exit_code s l 1 (case "A.t1" 0) 0 eq_refl)
    as (Hwait & _ & Hfinal).
  split; [exact (Hwait eq_refl)|]. split; [reflexivity|].
  destruct (Hfinal 1 (worker_step s l 1).1.2 s 0 (Hwait eq_refl) eq_refl)
    as [_ Hline].
  destruct (Hline s 0) as (line & Hpc & _ & _ & _ & Hfailed & _).
  exists line. split; [exact Hpc|]. apply Hfailed; discriminate.
Defined.

(** C7 as the specification states it fails.  The worker finds [INTERRUPT]
    set at line 236 and signals the process; its next step is not line 242
    but the end of the process, for which it waits at the end of the [with]
    block. *)
Lemma C7_signalled_worker_still_waits :
  let c := exec (steps 0 6) signal_after_check in
  pc_of c 0 = Some (Launched (case "A.t1" 0) 0)
  ∧ INTERRUPT (sh c) = true
  ∧ pc_of (step c (Work 0 0)) 0
    = Some (Exiting (case "A.t1" 0) 0 (Some (- SIGINT)))
  ∧ hist (exec [Work 0 0; Work 0 0] c)
    = hist c ++ [(0%nat, EvSignal SIGINT); (0%nat, EvExit 0)]
  ∧ pc_of (exec [Work 0 0; Work 0 0] c) 0
    = Some (CheckRetry (case "A.t1" 0) 0 (- SIGINT))
  ∧ ¬ goes_on_without_waiting c 0.
Proof.
  intros c. split; [reflexivity|]. split; [reflexivity|].
  split; [reflexivity|]. split; [reflexivity|]. split; [reflexivity|].
  intros H. destruct (H 0) as (t & start & Hpc). discriminate Hpc.
Qed.

(** The theorem of C7 on a store with [INTERRUPT] set. *)
Lemma C7_witness :
  let s := set_INTERRUPT (start_store [] "/") in
  let l := inside (Launched (case "A.t1" 0) 0) in
  l_pc l = Launched (case "A.t1" 0) 0
  ∧ INTERRUPT s = true
  ∧ (worker_step s l 0).2 = Some (EvSignal SIGINT)
  ∧ l_pc (worker_step s l 0).1.2
    = Exiting (case "A.t1" 0) 0 (Some (- SIGINT))
  ∧ l_pc (worker_step s (worker_step s l 0).1.2 0).1.2
    = CheckRetry (case "A.t1" 0) 0 (- SIGINT).
Proof.
  intros s l. split; [reflexivity|]. split; [reflexivity|].
  destruct (C7_interrupt_seen_after_launch s l 0 (case "A.t1" 0) 0 eq_refl)
    as (_ & Hset & Hexit & _).
  destruct (Hset eq_refl) as (Hev & Hpc & _).
  split; [exact Hev|]. split; [exact Hpc|].
  destruct (Hexit s (worker_step s l 0).1.2 0 (Some (- SIGINT)) Hpc)
    as (_ & _ & Hnext & _).
  exact Hnext.
Defined.

(** C8 as the specification states it fails.  The worker has passed the
    check of line 260 when [INTERRUPT] is set; nothing is claimed yet.  It
    goes on to take [A.t1] off the queue, starts its process, signals it at
    line 237 and writes a line with the status [Killed]. *)
Lemma C8_signal_between_check_and_claim :
  cancelled_before_claim signal_after_check
  ∧ tests (sh signal_after_check) = [case "A.t1" 0]
  ∧ pc_of signal_after_check 0 = Some CheckEmpty
  ∧ results (sh (exec (steps 0 11) signal_after_check))
    = [mkRow "A.t1" "Killed" 0 "/out/A.t1/run.log"]
  ∧ ¬ stays_empty signal_after_check.
Proof.
  split; [by repeat split|]. split; [reflexivity|]. split; [reflexivity|].
  split; [reflexivity|].
  intros H. specialize (H (steps 0 11)). discriminate H.
Qed.

(** The theorem of C8 on two workers, one of them stepping twice. *)
Lemma C8_witness :
  let s := set_INTERRUPT (start_store suite_A "/") in
  let c := exec [Work 0 0; Work 1 0; Work 0 0] (pool s 2) in
  INTERRUPT s = true
  ∧ results s = []
  ∧ results (sh c) = []
  ∧ tests (sh c) = suite_A
  ∧ pc_of c 0 = Some Stopped
  ∧ pc_of c 1 = Some Stopped.
Proof.
  intros s c.
  destruct (C8_interrupt_before_any_claim s 2 [Work 0 0; Work 1 0; Work 0 0]
              eq_refl eq_refl)
    as (Hres & Hq & _ & _ & _ & Hstop).
  split; [reflexivity|]. split; [reflexivity|].
  split; [exact Hres|]. split; [exact Hq|].
  split; eapply Hstop; try (simpl; lia).
  - apply list_elem_of_here.
  - apply list_elem_of_further, list_elem_of_here.
Defined.

(** The theorem of C9: worker 0 has started [A.t1], worker 1 is at line
    229 with [A.t2]. *)
Lemma C9_witness :
  let s := start_store suite_A "/" in
  let c := exec (until_launched 0 ++ steps 1 5) (pool s 2) in
  let l := mkLocal (Chdir (case "A.t2" 0)) ["A"] (Some "A")
                   (Some (case "A.t2" 0)) in
  ws c !! 1%nat = Some l
  ∧ last_started (hist c) None = Some (case "A.t1" 0)
  ∧ cwd (sh c) = "/out/A.t1"
  ∧ cwd (sh (step c (Work 1 0))) = "/out/A.t2".
Proof.
  intros s c l.
  assert (ws c !! 1%nat = Some l) as Hl by reflexivity.
  assert (last_started (hist c) None = Some (case "A.t1" 0)) as Hlast
    by reflexivity.
  destruct (C9_cwd_is_the_latest_chdir s 2 (until_launched 0 ++ steps 1 5))
    as (Hcwd & Habs & _ & Hnext).
  fold c in Hcwd, Habs, Hnext.
  pose proof (Habs (case "A.t1" 0) Hlast eq_refl) as Hdir.
  split; [exact Hl|]. split; [exact Hlast|].
  split; [by rewrite Hcwd, Hdir|].
  destruct (Hnext 1%nat l (case "A.t2" 0) 0 Hl) as [Hchdir _].
  rewrite (Hchdir eq_refl), Hdir. reflexivity.
Defined.

(** C10 as the specification states it fails.  [A.t1] is retried once and
    [B.t1] never; when [B.t1] is over, [_running_tests] holds one entry, and
    it is the name of [B.t1]: the removal for [A.t1] took the first of its
    two entries and the removal for [B.t1] took the second. *)
Lemma C10_entry_of_a_case_never_retried :
  pc_of two_cases_done 0 = Some Release
  ∧ Test <$> results (sh two_cases_done) = ["A.t1"; "B.t1"]
  ∧ count is_retry (segment (evs 0 (hist two_cases_done))) = O
  ∧ running_tests (sh two_cases_done) = ["B.t1"]
  ∧ ¬ leaves_its_retries two_cases_done 0 "B.t1".
Proof.
  split; [reflexivity|]. split; [reflexivity|]. split; [reflexivity|].
  split; [reflexivity|].
  unfold leaves_its_retries. vm_compute. discriminate.
Qed.

(** The theorem of C10 on a case retried once, when it is over. *)
Lemma C10_witness :
  let s := start_store [case "A.t1" 1; case "B.t1" 0] "/" in
  let sched := until_launched 0 ++ [Work 0 1] ++ steps 0 1 ++ steps 0 3
               ++ steps 0 4 ++ steps 0 1 in
  let c := exec sched (pool s 1) in
  let seg := segment (evs 0 (hist c)) in
  ws c !! 0%nat = Some (mkLocal LoopTop [] (Some "A") (Some (case "A.t1" 1)))
  ∧ seg ≠ []
  ∧ count is_retry seg = 1%nat
  ∧ count is_put seg = 2%nat
  ∧ count is_record seg = 1%nat
  ∧ length (running_tests (sh c)) = 1%nat.
Proof.
  intros s sched c seg.
  assert (ws c !! 0%nat
          = Some (mkLocal LoopTop [] (Some "A") (Some (case "A.t1" 1)))) as Hl
    by (vm_compute; reflexivity).
  assert (seg ≠ []) as Hseg by (vm_compute; discriminate).
  assert (count is_retry seg = 1%nat) as Hretry by (vm_compute; reflexivity).
  assert (count is_record (all_evs (hist c)) = 1%nat) as Hrecs
    by (vm_compute; reflexivity).
  assert (count is_put (all_evs (hist c)) = 2%nat) as Hputs
    by (vm_compute; reflexivity).
  destruct (C10_puts_exceed_removals_by_retries s 1 sched 0 _ Hl)
    as (Hcase & _ & Hlen & _).
  destruct (Hcase Hseg) as [Hput Hrec].
  fold c in Hput, Hrec, Hlen. fold seg in Hput, Hrec.
  rewrite Hrecs, Hputs in Hlen. rewrite Hretry in Hput.
  split; [exact Hl|]. split; [exact Hseg|]. split; [exact Hretry|].
  split; [exact Hput|]. split; [exact Hrec|].
  assert (length (running_tests s) = O) as Hs0 by reflexivity.
  rewrite Hs0 in Hlen. lia.
Defined.

(** * The rest of the run *)

(** A property of the pools: it holds at the start and every action keeps
    it, where the configuration before the action is one that a schedule
    leads to. *)
Lemma pool_invariant (Inv : config → Prop) s jobs :
  Inv (pool s jobs) →
  (∀ sched a, Inv (exec sched (pool s jobs)) →
              Inv (step (exec sched (pool s jobs)) a)) →
  ∀ sched, Inv (exec sched (pool s jobs)).
Proof.
  intros H0 Hstep sched. induction sched as [|a sched IH] using rev_ind.
  - done.
  - rewrite exec_app. simpl. by apply Hstep.
Qed.

(** ** Where the discovered cases are *)

Lemma kept_insert (wl : list local) j l l' :
  wl !! j = Some l →
  concat (kept <$> <[j := l']> wl) ++ kept l
  ≡ₚ concat (kept <$> wl) ++ kept l'.
Proof.
  revert j. induction wl as [|x wl IH]; intros j Hj; [done|].
  destruct j as [|j]; simpl in *.
  - injection Hj as ->. solve_Permutation.
  - specialize (IH j Hj). rewrite <- !app_assoc. by rewrite IH.
Qed.

Lemma kept_split (wl : list local) :
  concat (kept <$> wl) ≡ₚ in_flight wl ++ abandoned wl.
Proof.
  unfold in_flight, abandoned. induction wl as [|x wl IH]; [done|].
  simpl. rewrite IH. unfold kept. solve_Permutation.
Qed.

Lemma scanned_app h1 h2 : scanned (h1 ++ h2) = scanned h1 ++ scanned h2.
Proof. apply omap_app. Qed.

(** What a step of a tidy worker does to the queue, to the lines and to the
    case it holds. *)
Lemma worker_step_accounts s l ex i :
  tidy l →
  let '(s', l', e) := worker_step s l ex in
  tests s = scanned (note i e) ++ tests s'
  ∧ (test_name <$> scanned (note i e)) ++ kept l
    ≡ₚ (Test <$> rows_of (note i e)) ++ kept l'
  ∧ finished s' = (finished s + length (rows_of (note i e)))%nat
  ∧ (found_empty l' → found_empty l ∨ INTERRUPT s = true ∨ tests s' = [])
  ∧ (tests s = [] → tests s' = []).
Proof.
  intros Ht. destruct l as [p rg tg tc]. unfold worker_step, tidy in *.
  simpl in *.
  destruct p as [| | | |t|t|t|t st|t st o|t st r|t st r|t ln| | |err held];
    simpl in *; subst; rewrite ?scan_no_groups;
    repeat case_match; simplify_eq; simpl;
    unfold kept, holding, dropped, found_empty;
    simpl; repeat split; try done; try lia; try tauto.
  all: try (intros [?|[? ?]]; simplify_eq; tauto).
  all: try (destruct Ht as (_ & _ & ->); done).
Qed.

(** An exception changes neither the queue nor the lines: the case in hand
    is dropped. *)
Lemma worker_throw_accounts s l :
  kept (worker_throw s l) = kept l
  ∧ (found_empty (worker_throw s l) → found_empty l).
Proof.
  destruct l as [p rg tg tc].
  unfold worker_throw, kept, holding, dropped, found_empty. simpl.
  destruct p; simpl; try done.
  - split; [done|]. by intros [?|[? ?]].
  - split; [done|]. by intros [?|[? ?]].
  - destruct (INTERRUPT s); simpl; split; try done. by intros [?|[? ?]].
  - destruct (wants_retry ret t (INTERRUPT s)); simpl; split; try done.
    by intros [?|[? ?]].
Qed.

Lemma accounted_step s0 c a :
  Forall tidy (ws c) → accounted s0 c → accounted s0 (step c a).
Proof.
  intros Htidy (Hq & Hperm & Hfin & Hempty).
  rewrite <- kept_split in Hperm.
  destruct a as [j ex| |d|j]; simpl.
  - destruct (ws c !! j) as [l|] eqn:Hj; [|by rewrite kept_split in Hperm].
    pose proof (worker_step_accounts (sh c) l ex j
                  (Forall_lookup_1 _ _ _ _ Htidy Hj)) as Hstep.
    pose proof (kept_insert (ws c) j l) as Hins.
    pose proof (worker_step_store (sh c) l ex j) as Hstore.
    destruct (worker_step (sh c) l ex) as [[s l'] e].
    destruct Hstep as (Hq' & Hperm' & Hfin' & Hfound & Hstay).
    destruct Hstore as (_ & _ & Hkeep & _).
    specialize (Hins l' Hj).
    unfold accounted. simpl.
    rewrite scanned_app, rows_of_app, !fmap_app, length_app.
    split; [by rewrite <- app_assoc, <- Hq'|].
    split.
    { rewrite <- kept_split.
      apply (Permutation_app_inv_r (kept l)).
      rewrite <- !app_assoc. rewrite Hperm', Hins, Hperm.
      solve_Permutation. }
    split; [lia|].
    intros (i & li & Hi & Hfe).
    destruct (decide (i = j)) as [->|Hne].
    + rewrite list_lookup_insert_eq in Hi by (by eapply lookup_lt_Some).
      injection Hi as <-.
      destruct (Hfound Hfe) as [Hold | [Hint | Hnil]].
      * destruct Hempty as [Hint | Hnil]; [by exists j, l | | ].
        -- left. by rewrite Hkeep.
        -- right. by apply Hstay.
      * left. by rewrite Hkeep.
      * by right.
    + rewrite list_lookup_insert_ne in Hi by done.
      destruct Hempty as [Hint | Hnil]; [by exists i, li | | ].
      * left. by rewrite Hkeep.
      * right. by apply Hstay.
  - unfold accounted. simpl. rewrite <- kept_split.
    repeat split; try done. intros _. by left.
  - unfold accounted. simpl. rewrite <- kept_split. repeat split; try done.
  - destruct (ws c !! j) as [l|] eqn:Hj; [|by rewrite kept_split in Hperm].
    destruct (worker_throw_accounts (sh c) l) as [Hkept Hfound].
    pose proof (kept_insert (ws c) j l (worker_throw (sh c) l) Hj) as Hins.
    rewrite Hkept in Hins. apply Permutation_app_inv_r in Hins.
    unfold accounted. simpl.
    split; [done|]. split; [by rewrite <- kept_split, Hins|].
    split; [done|].
    intros (i & li & Hi & Hfe). apply Hempty.
    destruct (decide (i = j)) as [->|Hne].
    + rewrite list_lookup_insert_eq in Hi by (by eapply lookup_lt_Some).
      injection Hi as <-. exists j, l. split; [done|]. by apply Hfound.
    + rewrite list_lookup_insert_ne in Hi by done. by exists i, li.
Qed.

Lemma pool_tidy s jobs sched : Forall tidy (ws (exec sched (pool s jobs))).
Proof.
  apply Forall_lookup. intros i l Hi.
  by destruct (pool_shape s jobs sched i l Hi).
Qed.

Lemma pool_accounted s jobs sched : accounted s (exec sched (pool s jobs)).
Proof.
  apply pool_invariant.
  - unfold accounted. simpl.
    split; [done|]. split; [|split].
    + assert (in_flight (replicate jobs fresh) = []) as ->.
      { unfold in_flight. induction jobs as [|n IH]; [done|]. simpl. apply IH. }
      assert (abandoned (replicate jobs fresh) = []) as ->; [|done].
      unfold abandoned. induction jobs as [|n IH]; [done|]. simpl. apply IH.
    + lia.
    + intros (i & l & Hi & Hfe). apply lookup_replicate in Hi as [-> _].
      by destruct Hfe as [? | [? _]].
  - intros sch a. apply accounted_step, pool_tidy.
Qed.

(** In every run the queue is a suffix of the queue that [get_test_list]
    built: the scans take the cases off its front, in the order of
    discovery and each of them once, and nothing is put back. *)
Theorem cases_leave_the_queue_in_order q dir jobs sched :
  let c := exec sched (pool (start_store q dir) jobs) in
  q = scanned (hist c) ++ tests (sh c).
Proof.
  intros c. by destruct (pool_accounted (start_store q dir) jobs sched).
Qed.

Lemma pool_cases s jobs sched :
  let c := exec sched (pool s jobs) in
  results s = [] →
  test_name <$> tests s
  ≡ₚ (Test <$> results (sh c)) ++ in_flight (ws c) ++ abandoned (ws c)
     ++ (test_name <$> tests (sh c))
  ∧ finished (sh c) = (finished s + length (results (sh c)))%nat.
Proof.
  intros c Hnil.
  destruct (pool_accounted s jobs sched) as (Hq & Hperm & Hfin & _).
  destruct (pool_store s jobs sched) as (Hres & _).
  fold c in Hq, Hperm, Hfin, Hres. rewrite Hnil in Hres. simpl in Hres.
  rewrite Hres, Hfin. split; [|done].
  rewrite Hq at 1. rewrite fmap_app, Hperm. by rewrite <- !app_assoc.
Qed.






Lemma in_flight_stopped (wl : list local) :
  Forall (λ l, l_pc l = Stopped) wl → in_flight wl = [] ∧ abandoned wl = [].
Proof.
  unfold in_flight, abandoned. induction 1 as [|l wl Hl _ [IH1 IH2]]; [done|].
  rewrite !fmap_cons. simpl. rewrite IH1, IH2. unfold holding, dropped.
  by rewrite Hl.
Qed.

(** A run that was not interrupted and in which every worker has left the
    loop has run everything: the queue is empty, [self.results] has one
    line for each discovered case and no other, and [self._finished] is the
    number of discovered cases. *)
Theorem uninterrupted_run_is_complete q dir jobs sched :
  let c := exec sched (pool (start_store q dir) jobs) in
  (0 < jobs)%nat →
  INTERRUPT (sh c) = false →
  Forall (λ l, l_pc l = Stopped) (ws c) →
  tests (sh c) = []
  ∧ Test <$> results (sh c) ≡ₚ test_name <$> q
  ∧ length (results (sh c)) = length q
  ∧ finished (sh c) = length q.
Proof.
  intros c Hjobs Hint Hstopped.
  destruct (pool_accounted (start_store q dir) jobs sched)
    as (_ & _ & _ & Hempty).
  destruct (pool_cases (start_store q dir) jobs sched eq_refl) as [Hperm Hfin].
  simpl in Hperm, Hfin.
  fold c in Hempty, Hperm, Hfin.
  assert (tests (sh c) = []) as Hq.
  { destruct Hempty as [Hi | Hnil]; [|congruence|done].
    assert (0 < length (ws c))%nat as Hlen.
    { unfold c. rewrite exec_length_ws. simpl. by rewrite length_replicate. }
    destruct (lookup_lt_is_Some_2 _ _ Hlen) as [l Hl].
    exists O, l. split; [done|]. left.
    apply (Forall_lookup_1 _ _ _ _ Hstopped Hl). }
  destruct (in_flight_stopped _ Hstopped) as [Hflight Hdropped].
  rewrite Hq, Hflight, Hdropped in Hperm. simpl in Hperm.
  rewrite app_nil_r in Hperm.
  assert (length (results (sh c)) = length q) as Hlen.
  { apply Permutation_length in Hperm. by rewrite !length_fmap in Hperm. }
  split; [done|]. split; [done|]. split; [done|]. by rewrite Hfin.
Qed.

(** The theorem above on one worker and one case. *)
Lemma uninterrupted_run_is_complete_witness :
  let c := exec run_to_the_end (pool (start_store [case "A.t1" 0] "/out") 1) in
  (0 < 1)%nat
  ∧ INTERRUPT (sh c) = false
  ∧ Forall (λ l, l_pc l = Stopped) (ws c)
  ∧ tests (sh c) = []
  ∧ Test <$> results (sh c) ≡ₚ ["A.t1"]
  ∧ finished (sh c) = 1%nat.
Proof.
  intros c.
  assert (Forall (λ l, l_pc l = Stopped) (ws c)) as Hs
    by (repeat constructor).
  destruct (uninterrupted_run_is_complete [case "A.t1" 0] "/out" 1
              run_to_the_end (Nat.lt_0_1) eq_refl Hs)
    as (Hq & Hperm & _ & Hfin).
  split; [exact Nat.lt_0_1|]. split; [reflexivity|]. split; [exact Hs|].
  split; [exact Hq|]. split; [exact Hperm | exact Hfin].
Defined.

(** ** After the interrupt *)

Lemma worker_step_winding s l ex :
  INTERRUPT s = true →
  let '(s', l', e) := worker_step s l ex in
  INTERRUPT s' = true
  ∧ count is_retry (option_list e) = O
  ∧ (count is_claim (option_list e) + claims_left l' ≤ claims_left l)%nat.
Proof.
  intros Hint. destruct l as [p rg tg tc]. unfold worker_step. simpl.
  assert (∀ ret t, wants_retry ret t true = false) as Hno.
  { intros ret t. unfold wants_retry. by rewrite andb_false_r. }
  destruct p; simpl; rewrite ?Hint, ?Hno; repeat case_match; simplify_eq;
    unfold claims_left; simpl; repeat split; try done; try lia.
  all: repeat case_match; lia.
Qed.

Lemma claims_left_throw s l : claims_left (worker_throw s l) = claims_left l.
Proof.
  destruct l as [p rg tg tc]. unfold worker_throw, claims_left. simpl.
  destruct p; simpl; try done.
  - by destruct (INTERRUPT s).
  - by destruct (wants_retry ret t (INTERRUPT s)).
Qed.

Lemma winding_down_step c0 c a : winding_down c0 c → winding_down c0 (step c a).
Proof.
  intros (Hint & Hretry & Hclaims).
  destruct a as [j ex| |d|j]; simpl; [|done|done|].
  - destruct (ws c !! j) as [lj|] eqn:Hj; [|done].
    pose proof (worker_step_winding (sh c) lj ex Hint) as Hstep.
    destruct (worker_step (sh c) lj ex) as [[s l'] e].
    destruct Hstep as (Hint' & Hnone & Hleft).
    unfold winding_down. simpl. split; [done|]. split.
    { unfold all_evs in *. rewrite fmap_app, count_app.
      fold (all_evs (note j e)). rewrite all_evs_note. lia. }
    intros i li Hi. rewrite evs_app.
    destruct (decide (i = j)) as [->|Hne].
    + rewrite list_lookup_insert_eq in Hi by (by eapply lookup_lt_Some).
      injection Hi as <-.
      destruct (Hclaims j lj Hj) as (l0 & Hl0 & Hle).
      exists l0. split; [done|]. rewrite evs_note_same, count_app. lia.
    + rewrite list_lookup_insert_ne in Hi by done.
      rewrite evs_note_other by done. rewrite app_nil_r. by apply Hclaims.
  - destruct (ws c !! j) as [lj|] eqn:Hj; [|done].
    unfold winding_down. simpl. split; [done|]. split; [done|].
    intros i li Hi.
    destruct (decide (i = j)) as [->|Hne].
    + rewrite list_lookup_insert_eq in Hi by (by eapply lookup_lt_Some).
      injection Hi as <-. rewrite claims_left_throw. by apply Hclaims.
    + rewrite list_lookup_insert_ne in Hi by done. by apply Hclaims.
Qed.

(** Once [INTERRUPT] is set it stays set, no attempt is followed by another
    attempt of its case, and a worker claims at most one more case, and
    that only if the flag finds it between the check of line 260 and line
    278: a worker inside [_run_test], at line 281 or at the top of the loop
    claims nothing more. *)
Theorem after_the_interrupt c0 sched i l l' :
  let c := exec sched c0 in
  INTERRUPT (sh c0) = true →
  ws c0 !! i = Some l →
  ws c !! i = Some l' →
  INTERRUPT (sh c) = true
  ∧ count is_retry (all_evs (hist c)) = count is_retry (all_evs (hist c0))
  ∧ (count is_claim (evs i (hist c)) + claims_left l'
     ≤ count is_claim (evs i (hist c0)) + claims_left l)%nat.
Proof.
  intros c Hint Hl Hl'.
  assert (winding_down c0 c) as (Hint' & Hretry & Hclaims).
  { apply exec_invariant; [intros; by apply winding_down_step|].
    split; [done|]. split; [done|]. intros j lj Hj. by exists lj. }
  split; [done|]. split; [done|].
  destruct (Hclaims i l' Hl') as (l0 & Hl0 & Hle). by simplify_eq.
Qed.

(** The theorem above on the worker that [C8] catches between the check and
    the claim: it claims its one case and no other, and retries nothing. *)
Lemma after_the_interrupt_witness :
  let c := exec (steps 0 14) signal_after_check in
  INTERRUPT (sh signal_after_check) = true
  ∧ ws signal_after_check !! 0%nat = Some (mkLocal CheckEmpty [] None None)
  ∧ ws c !! 0%nat
    = Some (mkLocal Stopped [] (Some "A") (Some (case "A.t1" 0)))
  ∧ count is_retry (all_evs (hist c)) = O
  ∧ (count is_claim (evs 0 (hist c)) ≤ 1)%nat.
Proof.
  intros c.
  assert (ws c !! 0%nat
          = Some (mkLocal Stopped [] (Some "A") (Some (case "A.t1" 0))))
    as Hl' by (vm_compute; reflexivity).
  destruct (after_the_interrupt signal_after_check (steps 0 14) 0 _ _
              eq_refl eq_refl Hl') as (_ & Hretry & Hclaims).
  split; [reflexivity|]. split; [reflexivity|]. split; [exact Hl'|].
  split; [exact Hretry | exact Hclaims].
Defined.

(** ** The retries of a case *)

Lemma within_retries_step s l ex h :
  within_retries h l →
  within_retries (h ++ option_list (worker_step s l ex).2)
                 (worker_step s l ex).1.2.
Proof.
  intros Hw. destruct l as [p rg tg tc]. unfold worker_step. simpl.
  unfold within_retries in *. simpl in *.
  destruct p; simpl; repeat case_match; simpl;
    rewrite ?app_nil_r, ?segment_snoc; try done.
  all: try match goal with
       | |- context [segment_step ?x (EvClaim ?t)] =>
           change (segment_step x (EvClaim t)) with [EvClaim t];
           intros _; exists t; split; [reflexivity|];
           split; [simpl; lia|]; intros ? [= <-]; simpl;
           repeat split; lia
       end.
  all: destruct (decide (segment h = [])) as [Hnil|Hne];
    [ rewrite Hnil; intros Hx; by destruct Hx | ].
  all: rewrite segment_step_other by done; intros _.
  all: destruct (Hw Hne) as (t0 & Hc & Hle & Hin); exists t0.
  all: rewrite count_snoc; simpl; rewrite ?Nat.add_0_r.
  all: split; [by destruct (segment h)|].
  all: try (split; [done|]; intros ? [= <-]; by apply Hin).
  all: try (split; [done|]; by intros ? [=]).
  (* line 243 *)
  match goal with H : wants_retry _ _ _ = true |- _ =>
    apply wants_retry_true in H as (_ & Hpos & _) end.
  destruct (Hin t eq_refl) as (Hr & Hn & Hcmd & Hwd).
  split; [lia|]. intros ? [= <-]. simpl. repeat split; try done; lia.
Qed.

Lemma in_run_throw s l : in_run (l_pc (worker_throw s l)) = in_run (l_pc l).
Proof.
  destruct l as [p rg tg tc]. unfold worker_throw. simpl.
  destruct p; simpl; try done.
  - by destruct (INTERRUPT s).
  - by destruct (wants_retry ret t (INTERRUPT s)).
Qed.

Lemma within_retries_throw s l h :
  within_retries h l → within_retries h (worker_throw s l).
Proof.
  unfold within_retries. intros Hw Hne.
  destruct (Hw Hne) as (t0 & Hc & Hle & Hin).
  exists t0. split; [done|]. split; [done|].
  intros t Ht. rewrite in_run_throw in Ht. by apply Hin.
Qed.

(** A case is attempted at most once more than the [retry] of the tuple that
    was claimed (once, if that is zero or less), in every run and whatever
    the exit codes; and the tuple of each attempt is the claimed one but for
    [retry], which has gone down by one for each attempt before. *)
Theorem attempts_are_bounded s jobs sched i l t0 :
  let c := exec sched (pool s jobs) in
  let seg := segment (evs i (hist c)) in
  ws c !! i = Some l →
  claimed seg = Some t0 →
  (count is_retry seg ≤ Z.to_nat (retry t0))%nat
  ∧ (count is_put seg ≤ S (Z.to_nat (retry t0)))%nat
  ∧ ∀ t, in_run (l_pc l) = Some t →
      t = mkTest (test_name t0) (cmd t0) (working_dir t0)
                 (retry t0 - Z.of_nat (count is_retry seg)).
Proof.
  intros c seg Hi Hclaimed.
  assert (seg ≠ []) as Hne by (intros Hnil; by rewrite Hnil in Hclaimed).
  pose proof (per_worker_pool within_retries
                (λ s0 l0 ex h, within_retries_step s0 l0 ex h)
                (λ s0 l0 h, within_retries_throw s0 l0 h)
                s jobs sched) as Hw.
  assert (within_retries [] fresh) as H0 by (by intros Hx).
  destruct (Hw H0 i l Hi Hne) as (t0' & Hc' & Hle & Hin).
  fold c seg in Hc', Hle, Hin. rewrite Hclaimed in Hc'. injection Hc' as <-.
  destruct (pool_shape s jobs sched i l Hi) as [_ Hs].
  unfold shape in Hs. fold c seg in Hs.
  split; [done|]. split.
  - destruct (phase_of (l_pc l)); break_hyps; try done; lia.
  - intros t Ht. destruct (Hin t Ht) as (Hr & Hn & Hcmd & Hwd).
    destruct t. simpl in *. by subst.
Qed.

(** The theorem above on a case with two retries whose process fails
    twice and then passes: three attempts. *)
Lemma attempts_are_bounded_witness :
  let s := start_store [case "A.t1" 2] "/" in
  let sched := steps 0 4 ++ steps 0 3 ++ [Work 0 1; Work 0 1]
               ++ steps 0 3 ++ [Work 0 1; Work 0 1] ++ steps 0 8 in
  let c := exec sched (pool s 1) in
  let seg := segment (evs 0 (hist c)) in
  let l := mkLocal LoopTop [] (Some "A") (Some (case "A.t1" 2)) in
  ws c !! 0%nat = Some l
  ∧ claimed seg = Some (case "A.t1" 2)
  ∧ (count is_retry seg ≤ 2)%nat
  ∧ (count is_put seg ≤ 3)%nat.
Proof.
  intros s sched c seg l.
  assert (ws c !! 0%nat = Some l) as Hl by (vm_compute; reflexivity).
  assert (claimed seg = Some (case "A.t1" 2)) as Hc
    by (vm_compute; reflexivity).
  destruct (attempts_are_bounded s 1 sched 0 l (case "A.t1" 2) Hl Hc)
    as (Hretry & Hput & _).
  change (Z.to_nat (retry (case "A.t1" 2))) with 2%nat in Hretry, Hput.
  split; [exact Hl|]. split; [exact Hc|].
  split; [exact Hretry | exact Hput].
Defined.

(** * Discovery *)

(** ** The end of a run *)








(** ** Strings *)

Lemma lstrip_no_space c s : is_space c = false → lstrip (String c s) = String c s.
Proof. intros H. simpl. by rewrite H. Qed.

Lemma rstrip_no_space s :
  (∀ c, In c (list_ascii_of_string s) → is_space c = false) → rstrip s = s.
Proof.
  induction s as [|c s IH]; intros Hs; [done|]. simpl.
  rewrite IH by (intros c' Hc'; apply Hs; by right).
  destruct s; [|done]. rewrite (Hs c); [done | by left].
Qed.

Lemma before_absent sep s :
  (∀ c, In c (list_ascii_of_string s) → c ≠ sep) → before sep s = s.
Proof.
  induction s as [|c s IH]; intros Hs; [done|]. simpl.
  rewrite (proj2 (Ascii.eqb_neq c sep)) by (apply Hs; by left).
  rewrite IH; [done|]. intros c' Hc'. apply Hs. by right.
Qed.

Lemma list_ascii_app s1 s2 :
  list_ascii_of_string (s1 +:+ s2)
  = list_ascii_of_string s1 ++ list_ascii_of_string s2.
Proof. induction s1 as [|c s1 IH]; [done|]. simpl. by rewrite IH. Qed.

Lemma string_app_assoc (s1 s2 s3 : string) :
  (s1 +:+ s2) +:+ s3 = s1 +:+ s2 +:+ s3.
Proof.
  induction s1 as [|c s1 IH]; [done|].
  change (String c ((s1 +:+ s2) +:+ s3) = String c (s1 +:+ s2 +:+ s3)).
  by rewrite IH.
Qed.

Lemma plain_strip s : plain s → strip (before "#"%char s) = s.
Proof.
  intros [Hne Hs].
  rewrite before_absent by (intros c Hc; by apply Hs).
  unfold strip. destruct s as [|c s]; [done|].
  rewrite lstrip_no_space by (apply Hs; by left).
  apply rstrip_no_space. intros c' Hc'. by apply Hs.
Qed.

Lemma plain_app s1 s2 : plain s1 → plain s2 → plain (s1 +:+ s2).
Proof.
  intros [Hne1 H1] [Hne2 H2]. split.
  - destruct s1; [done|]. simpl. discriminate.
  - intros c. rewrite list_ascii_app, in_app_iff. intros [?|?]; auto.
Qed.

Lemma plain_dot : plain ".".
Proof. split; [done|]. intros c [<-|[]]. by split. Qed.

(** The group under which the scheduler files a test (line 270) is the name
    of its suite, when that has no dot. *)
Lemma group_of_qualified g t :
  (∀ c, In c (list_ascii_of_string g) → c ≠ "."%char) →
  group_of (g +:+ "." +:+ t) = g.
Proof.
  induction g as [|c g IH]; intros Hg; [done|]. simpl.
  rewrite (proj2 (Ascii.eqb_neq c ".")) by (apply Hg; by left).
  rewrite IH; [done|]. intros c' Hc'. apply Hg. by right.
Qed.

(** ** The lines *)

Section DiscoveryFacts.
Variable joinpath : string → string → string.
Variable o : options.

Lemma read_suite_line st g :
  plain g →
  read_line joinpath o st (g +:+ ".") = mkListing (Some (g +:+ ".")) (found st).
Proof.
  intros Hg. unfold read_line.
  rewrite plain_strip by (apply plain_app; [done | apply plain_dot]).
  destruct Hg as [Hne Hg]. destruct g as [|c g]; [done|]. simpl.
  destruct (Hg c) as [Hsp Hhash]; [by left|].
  destruct (Ascii.eqb_spec c " "); [by subst|done].
Qed.

Lemma read_test_line st t :
  plain t →
  read_line joinpath o st ("  " +:+ t)
  = mkListing (current_group st)
      (found st ++ [test_tuple joinpath o (show_group (current_group st) +:+ t)]).
Proof.
  intros Ht. unfold read_line.
  assert (strip (before "#"%char ("  " +:+ t)) = t) as ->.
  { simpl. pose proof (plain_strip t Ht) as Hs. unfold strip in *.
    simpl. exact Hs. }
  destruct Ht as [Hne _]. by destruct t.
Qed.

Lemma read_test_lines ts : ∀ st,
  Forall plain ts →
  fold_left (read_line joinpath o) ((λ t, "  " +:+ t) <$> ts) st
  = mkListing (current_group st)
      (found st
       ++ ((λ t, test_tuple joinpath o (show_group (current_group st) +:+ t))
             <$> ts)).
Proof.
  induction ts as [|t ts IH]; intros st Hts.
  - simpl. rewrite app_nil_r. by destruct st.
  - apply Forall_cons in Hts as [Ht Hts]. simpl.
    rewrite read_test_line by done. rewrite IH by done. simpl.
    by rewrite <- app_assoc.
Qed.

Lemma read_printed suites : ∀ st,
  Forall (λ '(g, ts), plain g ∧ Forall plain ts) suites →
  found (fold_left (read_line joinpath o) (printed suites) st)
  = found st ++ (test_tuple joinpath o <$> qualified suites).
Proof.
  induction suites as [|[g ts] suites IH]; intros st Hs.
  - simpl. by rewrite app_nil_r.
  - apply Forall_cons in Hs as [[Hg Hts] Hs].
    unfold printed, qualified in *. simpl.
    rewrite fold_left_app, read_suite_line by done.
    rewrite read_test_lines by done. rewrite IH by done. simpl.
    rewrite fmap_app, <- app_assoc. f_equal. f_equal.
    rewrite <- list_fmap_compose. apply list_fmap_ext. intros _ t _. simpl.
    by rewrite string_app_assoc.
Qed.

End DiscoveryFacts.

(** From the lines that the binary prints for its suites, [get_test_list]
    queues one tuple for each test, in the order of the listing, under the
    name of the suite, a dot and the name of the test, with the command,
    the directory and the retries of lines 302-308; [self._total] is their
    number and [self.options.jobs] is cut down to it.  The scheduler files
    each test under the name of its suite, if that has no dot. *)
Theorem listed_tests_are_queued joinpath o suites :
  Forall (λ '(g, ts), plain g ∧ Forall plain ts) suites →
  found (read_lines joinpath o (printed suites))
  = test_tuple joinpath o <$> qualified suites
  ∧ total_and_jobs joinpath o (printed suites)
    = (Z.of_nat (length (qualified suites)),
       Z.min (jobs o) (Z.of_nat (length (qualified suites))))
  ∧ ∀ g ts t, (g, ts) ∈ suites → t ∈ ts →
      (∀ c, In c (list_ascii_of_string g) → c ≠ "."%char) →
      test_tuple joinpath o (g +:+ "." +:+ t)
        ∈ found (read_lines joinpath o (printed suites))
      ∧ group_of (test_name (test_tuple joinpath o (g +:+ "." +:+ t))) = g.
Proof.
  intros Hs.
  assert (found (read_lines joinpath o (printed suites))
          = test_tuple joinpath o <$> qualified suites) as Hfound.
  { unfold read_lines. by rewrite read_printed. }
  split; [done|]. split.
  { unfold total_and_jobs. by rewrite Hfound, length_fmap. }
  intros g ts t Hg Ht Hdot. split.
  - rewrite Hfound. apply list_elem_of_fmap_2. unfold qualified.
    apply list_elem_of_bind. exists (g, ts). split; [|done].
    by apply (list_elem_of_fmap_2 (λ t, g +:+ "." +:+ t)).
  - simpl. by apply group_of_qualified.
Qed.

(** The theorem above on a suite of two tests. *)
Lemma listed_tests_are_queued_witness :
  let o := mkOptions "/b/gt" [] "/out" 2 8 in
  let join := λ a b : string, a +:+ "/" +:+ b in
  Forall (λ '(g, ts), plain g ∧ Forall plain ts) [("A", ["t1"; "t2"])]
  ∧ test_name <$> found (read_lines join o ["A."; "  t1"; "  t2"])
    = ["A.t1"; "A.t2"]
  ∧ total_and_jobs join o ["A."; "  t1"; "  t2"] = (2, 2).
Proof.
  intros o join.
  assert (∀ s, s ≠ EmptyString →
               forallb (λ c, negb (is_space c) && negb (Ascii.eqb c "#"))
                       (list_ascii_of_string s) = true → plain s) as Hplain.
  { intros s Hne Hall. split; [done|]. intros c Hc.
    rewrite forallb_forall in Hall. specialize (Hall c Hc).
    apply andb_true_iff in Hall as [H1 H2].
    apply negb_true_iff in H1, H2. split; [done|]. by apply Ascii.eqb_neq. }
  assert (Forall (λ '(g, ts), plain g ∧ Forall plain ts) [("A", ["t1"; "t2"])])
    as Hs.
  { apply Forall_singleton. split; [by apply Hplain|].
    apply Forall_cons. split; [by apply Hplain|].
    apply Forall_singleton. by apply Hplain. }
  destruct (listed_tests_are_queued join o _ Hs) as (Hfound & Htotal & _).
  split; [exact Hs|]. split.
  - change (printed [("A", ["t1"; "t2"])]) with ["A."; "  t1"; "  t2"] in Hfound.
    rewrite Hfound. reflexivity.
  - exact Htotal.
Defined.

(** A [#] and all that follows it on a line is not read: the line is
    taken as it is without them. *)
Theorem comments_are_not_read joinpath o st line rest :
  (∀ c, In c (list_ascii_of_string line) → c ≠ "#"%char) →
  read_line joinpath o st (line +:+ "#" +:+ rest)
  = read_line joinpath o st line.
Proof.
  intros Hline.
  assert (before "#"%char (line +:+ "#" +:+ rest) = line) as Hb.
  { clear st. induction line as [|c line IH]; [done|].
    change (before "#"%char (String c (line +:+ "#" +:+ rest)) = String c line).
    simpl. rewrite (proj2 (Ascii.eqb_neq c "#")) by (apply Hline; by left).
    rewrite IH; [done|]. intros c' Hc'. apply Hline. by right. }
  unfold read_line. rewrite Hb, before_absent by done.
  destruct line as [|c line]; [|done].
  simpl. by destruct (strip EmptyString).
Qed.

(** The theorem above on a line of a typed test. *)
Lemma comments_are_not_read_witness :
  let o := mkOptions "/b/gt" [] "/out" 2 8 in
  let join := λ a b : string, a +:+ "/" +:+ b in
  (∀ c, In c (list_ascii_of_string "  t1  ") → c ≠ "#"%char)
  ∧ read_line join o (mkListing (Some "A.") []) "  t1  # GetParam() = 1"
    = read_line join o (mkListing (Some "A.") []) "  t1  ".
Proof.
  intros o join.
  assert (∀ c, In c (list_ascii_of_string "  t1  ") → c ≠ "#"%char) as Hc.
  { intros c Hin. simpl in Hin.
    repeat (destruct Hin as [<-|Hin]; [discriminate|]). destruct Hin. }
  split; [exact Hc|].
  exact (comments_are_not_read join o (mkListing (Some "A.") []) "  t1  "
           " GetParam() = 1" Hc).
Defined.

(** * The instruction formats *)

(** ** One field *)

Lemma shl_ok a n : 0 ≤ n → shl a n = Ok (Z.shiftl a n).
Proof. intros Hn. unfold shl. by rewrite (proj2 (Z.ltb_ge n 0)). Qed.

Lemma shl_raises a n : n < 0 → shl a n = Raise ValueError.
Proof. intros Hn. unfold shl. by rewrite (proj2 (Z.ltb_lt n 0)). Qed.

(** A field can be made when [end] is not more than one below [start], and
    only then; what is made is built. *)
Lemma create_built name values start end_ default cfield cvalue ftype :
  (start - 1 ≤ end_ →
   ∃ f, Field.create name values start end_ default cfield cvalue ftype = Ok f
        ∧ Field.built f ∧ Field.start f = start ∧ Field.end_ f = end_
        ∧ Field._value f = default)
  ∧ (end_ < start - 1 →
     Field.create name values start end_ default cfield cvalue ftype
     = Raise ValueError).
Proof.
  unfold Field.create. split; intros H.
  - rewrite shl_ok by lia. simpl. eexists. split; [reflexivity|].
    unfold Field.built. simpl. repeat split; try lia.
  - by rewrite shl_raises by lia.
Qed.

Lemma fits_land_ones bitwidth a :
  0 ≤ bitwidth → fits bitwidth (Z.land a (Z.ones bitwidth)).
Proof.
  intros Hb. unfold fits. rewrite Z.land_ones by done.
  apply Z.mod_pos_bound. by apply Z.pow_pos_nonneg.
Qed.

Lemma fits_bits bitwidth v :
  0 ≤ bitwidth →
  fits bitwidth v ↔ Z.land v (Z.ones bitwidth) = v.
Proof.
  intros Hb. split.
  - intros Hv. rewrite Z.land_ones by done. by apply Z.mod_small.
  - intros <-. by apply fits_land_ones.
Qed.

Lemma get_pos_value_bits f bitwidth :
  Field.built f → 0 ≤ Field.start f → 0 ≤ bitwidth →
  ∃ v, Field.get_pos_value f bitwidth = Ok v
       ∧ fits bitwidth v
       ∧ ∀ n, 0 ≤ n → Z.testbit v n = bit_of_field f bitwidth n.
Proof.
  intros (Hsize & Hend & Hmask) Hstart Hb. unfold Field.get_pos_value.
  rewrite shl_ok by done. simpl. rewrite shl_ok by done. simpl.
  eexists. split; [reflexivity|].
  change (Z.shiftl 1 bitwidth - 1) with (Z.ones bitwidth).
  split; [by apply fits_land_ones|].
  intros n Hn. unfold bit_of_field, Field.covers.
  rewrite Z.land_spec, Z.shiftl_spec, Z.land_spec, Hmask by done.
  rewrite (Z.testbit_ones_nonneg bitwidth n) by done.
  rewrite (Z.testbit_ones (Field._size f)) by done.
  destruct (Z.leb_spec (Field.start f) n), (Z.leb_spec n (Field.end_ f)),
    (Z.leb_spec 0 (n - Field.start f)),
    (Z.ltb_spec (n - Field.start f) (Field._size f)); try lia; simpl;
    rewrite ?andb_false_r, ?andb_true_r; try done.
  apply andb_comm.
Qed.

(** ** The two loops of [encode] *)

Lemma fits_lor bitwidth a b :
  0 ≤ bitwidth → fits bitwidth a → fits bitwidth b → fits bitwidth (Z.lor a b).
Proof.
  intros Hb Ha Hc. apply fits_bits in Ha, Hc; try done. apply fits_bits; [done|].
  by rewrite Z.land_lor_distr_l, Ha, Hc.
Qed.

Lemma fits_land bitwidth a b :
  0 ≤ bitwidth → fits bitwidth a → fits bitwidth (Z.land a b).
Proof.
  intros Hb Ha. apply fits_bits in Ha; try done. apply fits_bits; [done|].
  by rewrite <- Z.land_assoc, (Z.land_comm b), Z.land_assoc, Ha.
Qed.

Lemma encode_plain_bits bitwidth fs : ∀ v0,
  0 ≤ bitwidth → fits bitwidth v0 →
  Forall (λ f, Field.built f ∧ 0 ≤ Field.start f) fs →
  ∃ v, BaseFormat.encode_plain bitwidth fs v0 = Ok v
       ∧ fits bitwidth v
       ∧ ∀ n, 0 ≤ n → Z.testbit v n = Z.testbit v0 n || plain_bit bitwidth fs n.
Proof.
  induction fs as [|f fs IH]; intros v0 Hb Hv0 Hfs.
  - exists v0. split; [done|]. split; [done|]. intros n _. simpl.
    by rewrite orb_false_r.
  - apply Forall_cons in Hfs as [[Hbuilt Hstart] Hfs]. simpl.
    destruct (Field.is_virtual f) eqn:Hvirt; simpl.
    + by apply IH.
    + destruct (get_pos_value_bits f bitwidth Hbuilt Hstart Hb)
        as (p & -> & Hp & Hbits). simpl.
      destruct (IH (Z.lor v0 p) Hb (fits_lor _ _ _ Hb Hv0 Hp) Hfs)
        as (v & Hv & Hfit & Hvbits).
      exists v. split; [done|]. split; [done|]. intros n Hn.
      rewrite Hvbits, Z.lor_spec, Hbits by done. by rewrite orb_assoc.
Qed.

Lemma mask_bit f n :
  Field.built f → 0 ≤ Field.start f → 0 ≤ n →
  Z.testbit (Z.shiftl (Field._mask f) (Field.start f)) n = Field.covers f n.
Proof.
  intros (Hsize & Hend & Hmask) Hstart Hn. unfold Field.covers.
  rewrite Z.shiftl_spec, Hmask, Z.testbit_ones by done.
  destruct (Z.leb_spec (Field.start f) n), (Z.leb_spec n (Field.end_ f)),
    (Z.leb_spec 0 (n - Field.start f)),
    (Z.ltb_spec (n - Field.start f) (Field._size f)); try lia; done.
Qed.

Lemma virtual_bit_cons bitwidth fields f fs n b :
  virtual_bit bitwidth fields (f :: fs) n b
  = virtual_bit bitwidth fields fs n
      (if overrides fields f && Field.covers f n
       then bit_of_field f bitwidth n else b).
Proof. done. Qed.

Lemma encode_virtual_bits bitwidth fields fs : ∀ v0,
  0 ≤ bitwidth → fits bitwidth v0 →
  Forall (λ f, Field.built f ∧ 0 ≤ Field.start f) fs →
  Forall (λ f, Field.is_virtual f = true →
               ∃ a, BaseFormat.active fields f = Ok a) fs →
  ∃ v, BaseFormat.encode_virtual bitwidth fields fs v0 = Ok v
       ∧ fits bitwidth v
       ∧ ∀ n, 0 ≤ n →
           Z.testbit v n = virtual_bit bitwidth fields fs n (Z.testbit v0 n).
Proof.
  induction fs as [|f fs IH]; intros v0 Hb Hv0 Hfs Hact.
  - exists v0. split; [done|]. split; [done|]. by intros.
  - apply Forall_cons in Hfs as [[Hbuilt Hstart] Hfs].
    apply Forall_cons in Hact as [Ha Hact]. simpl.
    destruct (Field.is_virtual f) eqn:Hvirt; simpl.
    2: { destruct (IH v0 Hb Hv0 Hfs Hact) as (v & Hv & Hfit & Hvbits).
         exists v. split; [done|]. split; [done|]. intros n Hn.
         rewrite virtual_bit_cons. unfold overrides. rewrite Hvirt. simpl.
         by apply Hvbits. }
    destruct (Ha eq_refl) as [a Hfa]. rewrite Hfa. simpl.
    destruct a.
    2: { destruct (IH v0 Hb Hv0 Hfs Hact) as (v & Hv & Hfit & Hvbits).
         exists v. split; [done|]. split; [done|]. intros n Hn.
         rewrite virtual_bit_cons. unfold overrides. rewrite Hvirt, Hfa. simpl.
         by apply Hvbits. }
    rewrite shl_ok by done. simpl.
    destruct (get_pos_value_bits f bitwidth Hbuilt Hstart Hb)
      as (p & -> & Hp & Hbits). simpl.
    set (v1 := Z.lor (Z.land v0 (Z.lnot (Z.shiftl (Field._mask f) (Field.start f)))) p).
    assert (fits bitwidth v1) as Hv1
      by (apply fits_lor; [done | by apply fits_land | done]).
    destruct (IH v1 Hb Hv1 Hfs Hact) as (v & Hv & Hfit & Hvbits).
    exists v. split; [done|]. split; [done|]. intros n Hn.
    rewrite Hvbits by done. rewrite virtual_bit_cons. f_equal.
    unfold overrides. rewrite Hvirt, Hfa. simpl.
    unfold v1. rewrite Z.lor_spec, Z.land_spec, Z.lnot_spec, Hbits by done.
    rewrite mask_bit by done. unfold bit_of_field.
    destruct (Field.covers f n); simpl.
    all: by rewrite ?andb_false_r, ?andb_true_r, ?orb_false_r.
Qed.

Lemma encode_bits fmt :
  BaseFormat.placeable fmt →
  let fs := snd <$> BaseFormat._fields fmt in
  let w := BaseFormat._bitwidth fmt in
  ∃ v, BaseFormat.encode fmt = Ok v
       ∧ fits w v
       ∧ ∀ n, 0 ≤ n →
           Z.testbit v n
           = virtual_bit w (BaseFormat._fields fmt) fs n (plain_bit w fs n).
Proof.
  intros (Hb & Hfs & Hact) fs w. unfold BaseFormat.encode. fold fs w.
  destruct (encode_plain_bits w fs 0 Hb) as (v1 & -> & Hv1 & Hbits1);
    [split; [done | by apply Z.pow_pos_nonneg] | done |].
  simpl.
  destruct (encode_virtual_bits w (BaseFormat._fields fmt) fs v1 Hb Hv1 Hfs Hact)
    as (v & Hv & Hfit & Hbits).
  exists v. split; [done|]. split; [done|]. intros n Hn.
  rewrite Hbits, Hbits1 by done. by rewrite Z.bits_0.
Qed.

(** ** What an encoding holds *)

Lemma existsb_only {A} (P : A → bool) (l : list A) i x :
  l !! i = Some x →
  (∀ j y, l !! j = Some y → j ≠ i → P y = false) →
  existsb P l = P x.
Proof.
  revert i. induction l as [|a l IH]; intros i Hi Hothers; [done|].
  destruct i as [|i]; simpl in *.
  - injection Hi as ->.
    assert (existsb P l = false) as ->; [|by rewrite orb_false_r].
    apply not_true_is_false. intros Hex.
    apply existsb_exists in Hex as (y & Hy & HP).
    apply list_elem_of_In, list_elem_of_lookup in Hy as [j Hj].
    by rewrite (Hothers (S j) y Hj) in HP.
  - rewrite (Hothers O a) by done. simpl. apply (IH i Hi).
    intros j y Hj Hne. apply (Hothers (S j) y Hj). lia.
Qed.

Lemma virtual_bit_untouched bitwidth fields fs n : ∀ b,
  (∀ g, g ∈ fs → overrides fields g = true → Field.covers g n = false) →
  virtual_bit bitwidth fields fs n b = b.
Proof.
  induction fs as [|f fs IH]; intros b Hfs; [done|].
  rewrite virtual_bit_cons, IH.
  - destruct (overrides fields f) eqn:Ho; [|done].
    rewrite (Hfs f); [done | by left | done].
  - intros g Hg. apply Hfs. by right.
Qed.

Lemma apart_not_covered f g n :
  Field.apart f g → Field.covers f n = true → Field.covers g n = false.
Proof.
  unfold Field.apart, Field.covers. intros Hap Hc.
  apply andb_true_iff in Hc as [H1 H2].
  apply Z.leb_le in H1, H2. apply andb_false_iff.
  destruct (Z.leb_spec (Field.start g) n); [right|by left].
  apply Z.leb_gt. lia.
Qed.

(** The bits of a value in the place of the field [f], as a number. *)
Lemma read_field f v :
  Field.built f → 0 ≤ Field.start f →
  (∀ m, 0 ≤ m < Field._size f →
        Z.testbit v (m + Field.start f) = Z.testbit (Field._value f) m) →
  Z.land (Z.shiftr v (Field.start f)) (Field._mask f)
  = Z.land (Field._value f) (Field._mask f).
Proof.
  intros (Hsize & Hend & Hmask) Hstart Hbits. apply Z.bits_inj'. intros m Hm.
  rewrite !Z.land_spec, Z.shiftr_spec, Hmask, Z.testbit_ones_nonneg by done.
  destruct (Z.ltb_spec m (Field._size f)).
  - by rewrite Hbits by lia.
  - by rewrite !andb_false_r.
Qed.

(** Whatever the values of the fields, [encode] returns, and what it returns
    is a number of [_bitwidth] bits, when every field starts at a bit that
    is not negative, the width is not negative and the field that each
    virtual field depends on is in the format. *)
Theorem encode_fits_the_width fmt :
  BaseFormat.placeable fmt →
  ∃ v, BaseFormat.encode fmt = Ok v ∧ 0 ≤ v < 2 ^ BaseFormat._bitwidth fmt.
Proof.
  intros Hfmt. destruct (encode_bits fmt Hfmt) as (v & Hv & Hfit & _).
  by exists v.
Qed.

(** The value of a field can be read back from the encoding: shifted down
    to the start of the field and masked, the encoding gives the value of
    the field up to its size, for a field that is not virtual, ends within
    the width, and shares no bit with another field that is not virtual or
    with a virtual field that takes part. *)
Theorem field_is_read_back fmt v i f :
  let fs := snd <$> BaseFormat._fields fmt in
  BaseFormat.placeable fmt →
  BaseFormat.encode fmt = Ok v →
  fs !! i = Some f →
  Field.is_virtual f = false →
  Field.end_ f < BaseFormat._bitwidth fmt →
  (∀ j g, fs !! j = Some g → j ≠ i → Field.is_virtual g = false →
          Field.apart f g) →
  (∀ g, g ∈ fs → overrides (BaseFormat._fields fmt) g = true →
        Field.apart f g) →
  Z.land (Z.shiftr v (Field.start f)) (Field._mask f)
  = Z.land (Field._value f) (Field._mask f).
Proof.
  intros fs Hfmt Hv Hi Hvirt Hend Hplain Hover.
  destruct (encode_bits fmt Hfmt) as (v' & Hv' & _ & Hbits).
  fold fs in Hbits. rewrite Hv in Hv'. injection Hv' as <-.
  destruct Hfmt as (Hb & Hfs & _). fold fs in Hfs.
  destruct (Forall_lookup_1 _ _ _ _ Hfs Hi) as [Hbuilt Hstart].
  apply (read_field f v); try done.
  intros m Hm. pose proof Hbuilt as (_ & Hsize & _).
  assert (Field.covers f (m + Field.start f) = true) as Hcov.
  { unfold Field.covers. apply andb_true_iff. split; apply Z.leb_le; lia. }
  rewrite Hbits by lia.
  rewrite virtual_bit_untouched
    by (intros g Hg Ho; eapply apart_not_covered; eauto).
  unfold plain_bit.
  rewrite (existsb_only _ fs i f Hi).
  - rewrite Hvirt. simpl. unfold bit_of_field. rewrite Hcov. simpl.
    rewrite (proj2 (Z.ltb_lt _ _)) by lia. simpl. f_equal. lia.
  - intros j g Hj Hne. destruct (Field.is_virtual g) eqn:Hg; [done|]. simpl.
    unfold bit_of_field.
    by rewrite (apart_not_covered f g _ (Hplain j g Hj Hne Hg) Hcov).
Qed.

(** A virtual field that takes part overrides what is below it: read back
    in its place, the encoding gives the value of the virtual field, whatever
    the other fields put there, if it ends within the width and no virtual
    field after it that takes part shares a bit with it. *)
Theorem virtual_field_overrides fmt v i f :
  let fs := snd <$> BaseFormat._fields fmt in
  BaseFormat.placeable fmt →
  BaseFormat.encode fmt = Ok v →
  fs !! i = Some f →
  overrides (BaseFormat._fields fmt) f = true →
  Field.end_ f < BaseFormat._bitwidth fmt →
  (∀ j g, fs !! j = Some g → (i < j)%nat →
          overrides (BaseFormat._fields fmt) g = true → Field.apart f g) →
  Z.land (Z.shiftr v (Field.start f)) (Field._mask f)
  = Z.land (Field._value f) (Field._mask f).
Proof.
  intros fs Hfmt Hv Hi Hover Hend Hlater.
  destruct (encode_bits fmt Hfmt) as (v' & Hv' & _ & Hbits).
  fold fs in Hbits. rewrite Hv in Hv'. injection Hv' as <-.
  destruct Hfmt as (Hb & Hfs & _). fold fs in Hfs.
  destruct (Forall_lookup_1 _ _ _ _ Hfs Hi) as [Hbuilt Hstart].
  apply (read_field f v); try done.
  intros m Hm. pose proof Hbuilt as (_ & Hsize & _).
  assert (Field.covers f (m + Field.start f) = true) as Hcov.
  { unfold Field.covers. apply andb_true_iff. split; apply Z.leb_le; lia. }
  rewrite Hbits by lia.
  rewrite <- (take_drop_middle fs i f Hi) at 1.
  unfold virtual_bit at 1. rewrite fold_left_app.
  change (fold_left ?g (f :: ?l) ?b) with (fold_left g l (g b f)).
  cbv beta. rewrite Hover, Hcov. simpl.
  fold (virtual_bit (BaseFormat._bitwidth fmt) (BaseFormat._fields fmt)
          (drop (S i) fs) (m + Field.start f)
          (bit_of_field f (BaseFormat._bitwidth fmt) (m + Field.start f))).
  rewrite virtual_bit_untouched.
  - unfold bit_of_field. rewrite Hcov. simpl.
    rewrite (proj2 (Z.ltb_lt _ _)) by lia. simpl. f_equal. lia.
  - intros g Hg Ho. apply list_elem_of_lookup in Hg as [j Hj].
    rewrite lookup_drop in Hj.
    eapply apart_not_covered; [|done].
    apply (Hlater (S i + j)%nat g Hj); [lia | done].
Qed.

Lemma small_format_placeable opcode : BaseFormat.placeable (small_format opcode).
Proof.
  split; [done|]. split.
  - repeat (apply Forall_cons; split; [unfold Field.built; simpl; repeat split; lia|]).
    constructor.
  - repeat (apply Forall_cons; split; [try done|]); [|constructor].
    intros _. by eexists.
Qed.

(** The theorem on the width on the example: the opcode 5 calls the
    immediate in, and the byte is [0xB5]. *)
Lemma encode_fits_the_width_witness :
  BaseFormat.placeable (small_format 5)
  ∧ BaseFormat.encode (small_format 5) = Ok 181
  ∧ ∃ v, BaseFormat.encode (small_format 5) = Ok v ∧ 0 ≤ v < 2 ^ 8.
Proof.
  split; [apply small_format_placeable|]. split; [reflexivity|].
  exact (encode_fits_the_width (small_format 5) (small_format_placeable 5)).
Defined.

(** The opcode is read back from the byte [0xB5]. *)
Lemma field_is_read_back_witness :
  BaseFormat.encode (small_format 5) = Ok 181
  ∧ Z.land (Z.shiftr 181 0) 15 = Z.land 5 15.
Proof.
  split; [reflexivity|].
  apply (field_is_read_back (small_format 5) 181 0 (field_at "opcode" 0 3 5)
           (small_format_placeable 5) eq_refl eq_refl eq_refl).
  - simpl. lia.
  - intros j g Hj Hne _. destruct j as [|[|[|j]]]; simpl in Hj; simplify_eq;
      unfold Field.apart; simpl; lia.
  - intros g Hg Ho.
    apply list_elem_of_lookup in Hg as [j Hj].
    destruct j as [|[|[|j]]]; simpl in Hj; simplify_eq;
      try discriminate Ho.
    unfold Field.apart. simpl. lia.
Defined.

(** The immediate is read back from the bits 4-5 of the byte [0xB5], where
    the destination alone would have put 2. *)
Lemma virtual_field_overrides_witness :
  BaseFormat.encode (small_format 5) = Ok 181
  ∧ overrides (BaseFormat._fields (small_format 5))
              (virtual_at "imm" 4 5 3 "opcode" 5) = true
  ∧ Z.land (Z.shiftr 181 4) 3 = Z.land 3 3.
Proof.
  split; [reflexivity|]. split; [reflexivity|].
  apply (virtual_field_overrides (small_format 5) 181 2
           (virtual_at "imm" 4 5 3 "opcode" 5)
           (small_format_placeable 5) eq_refl eq_refl eq_refl).
  - simpl. lia.
  - intros j g Hj Hlt _. destruct j as [|[|[|j]]]; simpl in Hj; simplify_eq; lia.
Defined.

(** ** The hexadecimal text and the bytes *)

Lemma hex_digit_facts d :
  0 ≤ d < 16 →
  hex_value (hex_digit d) = Some d
  ∧ is_ascii_space (hex_digit d) = false
  ∧ is_sign (hex_digit d) = false.
Proof.
  intros Hd.
  assert (d = 0 ∨ d = 1 ∨ d = 2 ∨ d = 3 ∨ d = 4 ∨ d = 5 ∨ d = 6 ∨ d = 7
          ∨ d = 8 ∨ d = 9 ∨ d = 10 ∨ d = 11 ∨ d = 12 ∨ d = 13 ∨ d = 14
          ∨ d = 15) as Hcases by lia.
  break_hyps; subst d; vm_compute; done.
Qed.

Lemma hexn_zero n : hexn n 0 = replicate n "0"%char.
Proof.
  induction n as [|n IH]; [done|].
  rewrite replicate_S_end. simpl. change (0 / 16) with 0. by rewrite IH.
Qed.

Lemma hexn_length n v : length (hexn n v) = n.
Proof.
  revert v. induction n as [|n IH]; intros v; [done|].
  simpl. rewrite length_app, IH. simpl. lia.
Qed.

Lemma hexn_digits n v : digits_only (hexn n v).
Proof.
  revert v. induction n as [|n IH]; intros v; [constructor|].
  simpl. apply Forall_app. split; [apply IH|].
  apply Forall_cons. split; [|constructor].
  exists (v mod 16). split; [|done]. by apply Z.mod_pos_bound.
Qed.

Lemma hex_digits_digits fuel v acc :
  0 ≤ v → digits_only acc → digits_only (hex_digits fuel v acc).
Proof.
  revert v acc. induction fuel as [|k IH]; intros v acc Hv Hacc; [done|].
  simpl. case_match; [done|].
  apply IH; [by apply Z.div_pos|].
  apply Forall_cons. split; [|done].
  exists (v mod 16). split; [|done]. by apply Z.mod_pos_bound.
Qed.

(** The digits that [hex] writes, filled up with zeros, are the lowest
    digits. *)
Lemma hex_digits_pad fuel v acc n :
  0 ≤ v < 16 ^ Z.of_nat fuel →
  v < 16 ^ Z.of_nat n →
  ∃ m, (m ≤ n)%nat
       ∧ length (hex_digits fuel v acc) = (m + length acc)%nat
       ∧ replicate (n - m) "0"%char ++ hex_digits fuel v acc
         = hexn n v ++ acc.
Proof.
  revert v acc n. induction fuel as [|k IH]; intros v acc n Hv Hn.
  - assert (v = 0) as -> by (simpl in Hv; lia).
    exists O. split; [lia|]. split; [done|].
    by rewrite hexn_zero, Nat.sub_0_r.
  - simpl. destruct (v =? 0) eqn:Hz.
    + apply Z.eqb_eq in Hz as ->.
      exists O. split; [lia|]. split; [done|].
      by rewrite hexn_zero, Nat.sub_0_r.
    + apply Z.eqb_neq in Hz.
      destruct n as [|n]; [simpl in Hn; lia|].
      rewrite Nat2Z.inj_succ, Z.pow_succ_r in Hv, Hn by lia.
      destruct (IH (v / 16) (hex_digit (v mod 16) :: acc) n) as (m & Hm & Hlen & Hpad).
      { split; [apply Z.div_pos; lia|]. apply Z.div_lt_upper_bound; lia. }
      { apply Z.div_lt_upper_bound; lia. }
      exists (S m). split; [lia|]. split.
      * rewrite Hlen. simpl. lia.
      * change (S n - S m)%nat with (n - m)%nat. rewrite Hpad.
        simpl. by rewrite <- app_assoc.
Qed.

Lemma zfill_digits width s :
  digits_only s →
  zfill width s = replicate (Z.to_nat width - length s) "0"%char ++ s.
Proof.
  intros Hs. unfold zfill. destruct Hs as [|c s (d & Hd & ->) _].
  - by rewrite app_nil_r.
  - by destruct (hex_digit_facts d Hd) as (_ & _ & ->).
Qed.

(** [hex(v)[2:].zfill(n)] of a number of at most [n] digits. *)
Lemma zfill_hex n v :
  (0 < n)%nat → 0 ≤ v < 16 ^ Z.of_nat n →
  zfill (Z.of_nat n) (drop 2 (py_hex v)) = hexn n v.
Proof.
  intros Hn Hv. unfold py_hex.
  rewrite (proj2 (Z.ltb_ge _ _)) by lia. rewrite Z.abs_eq by lia.
  change (drop 2 ([] ++ ["0"%char; "x"%char] ++ ?l)) with l.
  destruct (v =? 0) eqn:Hz.
  - apply Z.eqb_eq in Hz as ->. rewrite hexn_zero.
    unfold zfill. change (is_sign "0") with false. cbv iota.
    rewrite Nat2Z.id. simpl length.
    destruct n as [|n]; [lia|].
    change (S n - 1)%nat with (n - 0)%nat. rewrite Nat.sub_0_r.
    by rewrite <- replicate_S_end.
  - apply Z.eqb_neq in Hz.
    set (fuel := S (Z.to_nat (Z.log2 v))).
    assert (0 ≤ v < 16 ^ Z.of_nat fuel) as Hfuel.
    { split; [lia|]. unfold fuel.
      rewrite Nat2Z.inj_succ, Z2Nat.id by apply Z.log2_nonneg.
      destruct (Z.log2_spec v) as [_ Hlt]; [lia|].
      eapply Z.lt_le_trans; [exact Hlt|].
      apply Z.pow_le_mono_l. pose proof (Z.log2_nonneg v). lia. }
    destruct (hex_digits_pad fuel v [] n Hfuel (proj2 Hv))
      as (m & Hm & Hlen & Hpad).
    rewrite zfill_digits by (apply hex_digits_digits; [lia | constructor]).
    rewrite Nat2Z.id, Hlen. simpl length. rewrite Nat.add_0_r, Hpad.
    by rewrite app_nil_r.
Qed.

Lemma fromhex_pair h l s :
  0 ≤ h < 16 → 0 ≤ l < 16 →
  fromhex (hex_digit h :: hex_digit l :: s)
  = bs ← fromhex s; Ok (16 * h + l :: bs).
Proof.
  intros Hh Hl.
  destruct (hex_digit_facts h Hh) as (Hvh & Hsh & _).
  destruct (hex_digit_facts l Hl) as (Hvl & _ & _).
  change (fromhex (hex_digit h :: hex_digit l :: s))
    with (if is_ascii_space (hex_digit h) then fromhex (hex_digit l :: s)
          else match hex_value (hex_digit h), hex_value (hex_digit l) with
               | Some h, Some l => bs ← fromhex s; Ok (16 * h + l :: bs)
               | _, _ => Raise ValueError
               end).
  by rewrite Hsh, Hvh, Hvl.
Qed.

Lemma fromhex_snoc m s h l :
  length s = (2 * m)%nat → digits_only s →
  0 ≤ h < 16 → 0 ≤ l < 16 →
  ∃ bs, fromhex s = Ok bs
        ∧ fromhex (s ++ [hex_digit h; hex_digit l]) = Ok (bs ++ [16 * h + l]).
Proof.
  revert s. induction m as [|m IH]; intros s Hlen Hs Hh Hl.
  - destruct s; [|done]. exists []. split; [done|].
    simpl app. by rewrite fromhex_pair.
  - destruct s as [|a [|b s]]; [done | simpl in Hlen; lia |].
    apply Forall_cons in Hs as [(da & Hda & ->) Hs].
    apply Forall_cons in Hs as [(db & Hdb & ->) Hs].
    destruct (IH s) as (bs & Hbs & Hsnoc); [simpl in Hlen; lia | done..|].
    exists (16 * da + db :: bs). rewrite <- !app_comm_cons.
    rewrite !fromhex_pair by done. by rewrite Hbs, Hsnoc.
Qed.

Lemma fromhex_odd m s :
  length s = S (2 * m) → digits_only s → fromhex s = Raise ValueError.
Proof.
  revert s. induction m as [|m IH]; intros s Hlen Hs.
  - destruct s as [|a [|b s]]; [done| |done].
    apply Forall_cons in Hs as [(da & Hda & ->) _].
    destruct (hex_digit_facts da Hda) as (_ & Hsp & _).
    simpl. by rewrite Hsp.
  - destruct s as [|a [|b s]]; [done | simpl in Hlen; lia |].
    apply Forall_cons in Hs as [(da & Hda & ->) Hs].
    apply Forall_cons in Hs as [(db & Hdb & ->) Hs].
    rewrite fromhex_pair by done.
    rewrite (IH s); [done | simpl in Hlen; lia | done].
Qed.

Lemma two_digits v : 16 * (v / 16 mod 16) + v mod 16 = v mod 256.
Proof.
  apply (Z.mod_unique_pos v 256 (v / 16 / 16)).
  - pose proof (Z.mod_pos_bound (v / 16) 16). pose proof (Z.mod_pos_bound v 16).
    lia.
  - pose proof (Z.div_mod v 16). pose proof (Z.div_mod (v / 16) 16). lia.
Qed.

Lemma fromhex_hexn k v :
  fromhex (hexn (2 * k) v) = Ok (reverse (le_bytes k v)).
Proof.
  revert v. induction k as [|k IH]; intros v; [done|].
  replace (2 * S k)%nat with (S (S (2 * k))) by lia.
  change (hexn (S (S (2 * k))) v)
    with ((hexn (2 * k) (v / 16 / 16) ++ [hex_digit (v / 16 mod 16)])
          ++ [hex_digit (v mod 16)]).
  rewrite <- app_assoc.
  change ([hex_digit (v / 16 mod 16)] ++ [hex_digit (v mod 16)])
    with [hex_digit (v / 16 mod 16); hex_digit (v mod 16)].
  destruct (fromhex_snoc k (hexn (2 * k) (v / 16 / 16))
              (v / 16 mod 16) (v mod 16)) as (bs & Hbs & ->).
  - apply hexn_length.
  - apply hexn_digits.
  - by apply Z.mod_pos_bound.
  - by apply Z.mod_pos_bound.
  - rewrite IH in Hbs. injection Hbs as <-.
    rewrite two_digits. simpl le_bytes. rewrite reverse_cons.
    by rewrite Z.div_div by lia.
Qed.

Lemma le_bytes_length k v : length (le_bytes k v) = k.
Proof.
  revert v. induction k as [|k IH]; intros v; [done|]. simpl. by rewrite IH.
Qed.

Lemma le_bytes_lookup k v j :
  (j < k)%nat →
  le_bytes k v !! j = Some (Z.land (Z.shiftr v (8 * Z.of_nat j)) 255).
Proof.
  revert v j. induction k as [|k IH]; intros v j Hj; [lia|].
  destruct j as [|j].
  - simpl. f_equal. change 255 with (Z.ones 8).
    by rewrite Z.shiftr_0_r, Z.land_ones.
  - simpl le_bytes. rewrite lookup_cons. rewrite IH by lia. f_equal. f_equal.
    rewrite !Z.shiftr_div_pow2 by lia.
    replace (8 * Z.of_nat (S j)) with (8 + 8 * Z.of_nat j) by lia.
    rewrite Z.pow_add_r by lia. rewrite Z.div_div by lia. done.
Qed.

Lemma bind_ok {A B} (a : A) (k : A → result B) : (x ← Ok a; k x) = k a.
Proof. done. Qed.

Lemma hex_of_encode fmt n :
  BaseFormat.placeable fmt →
  (0 < n)%nat → BaseFormat._bitwidth fmt = 4 * Z.of_nat n →
  ∃ v, BaseFormat.encode fmt = Ok v
       ∧ 0 ≤ v < 2 ^ BaseFormat._bitwidth fmt
       ∧ BaseFormat.hex fmt = Ok (hexn n v).
Proof.
  intros Hfmt Hn Hw.
  destruct (encode_bits fmt Hfmt) as (v & Hv & Hfits & _).
  exists v. split; [done|]. split; [done|].
  unfold BaseFormat.hex. rewrite Hv. simpl. f_equal.
  rewrite Hw. replace (4 * Z.of_nat n / 4) with (Z.of_nat n)
    by (apply Z.div_unique_exact; lia).
  apply zfill_hex; [done|].
  unfold fits in Hfits. rewrite Hw in Hfits.
  by rewrite Z.pow_mul_r in Hfits by lia.
Qed.

(** The bytes of a format whose width is a whole number of bytes, at least
    one, are its encoding, the least significant byte first. *)
Theorem bytes_are_little_endian fmt k :
  BaseFormat.placeable fmt →
  (0 < k)%nat →
  BaseFormat._bitwidth fmt = 8 * Z.of_nat k →
  ∃ v bs, BaseFormat.encode fmt = Ok v
          ∧ BaseFormat.bytes fmt = Ok bs
          ∧ length bs = k
          ∧ ∀ j, (j < k)%nat →
              bs !! j = Some (Z.land (Z.shiftr v (8 * Z.of_nat j)) 255).
Proof.
  intros Hfmt Hk Hw.
  destruct (hex_of_encode fmt (2 * k) Hfmt) as (v & Hv & _ & Hhex);
    [lia | lia |].
  exists v, (le_bytes k v). split; [done|]. split.
  - unfold BaseFormat.bytes. rewrite Hhex, bind_ok, fromhex_hexn, bind_ok.
    by rewrite reverse_involutive.
  - split; [apply le_bytes_length|]. intros j Hj. by apply le_bytes_lookup.
Qed.

(** The theorem above on the example: one byte, [0xB5]. *)
Lemma bytes_are_little_endian_witness :
  BaseFormat.placeable (small_format 5)
  ∧ BaseFormat.hex (small_format 5) = Ok ["b"%char; "5"%char]
  ∧ BaseFormat.bytes (small_format 5) = Ok [181]
  ∧ ∃ v bs, BaseFormat.encode (small_format 5) = Ok v
            ∧ BaseFormat.bytes (small_format 5) = Ok bs
            ∧ length bs = 1%nat
            ∧ ∀ j, (j < 1)%nat →
                bs !! j = Some (Z.land (Z.shiftr v (8 * Z.of_nat j)) 255).
Proof.
  split; [apply small_format_placeable|]. split; [reflexivity|].
  split; [reflexivity|].
  exact (bytes_are_little_endian (small_format 5) 1
           (small_format_placeable 5) ltac:(lia) eq_refl).
Defined.

(** A format whose width is a whole number of bytes and a half has no
    bytes: its text has an odd number of digits, and [bytes.fromhex] raises
    [ValueError]. *)
Theorem half_a_byte_has_no_bytes fmt k :
  BaseFormat.placeable fmt →
  BaseFormat._bitwidth fmt = 8 * Z.of_nat k + 4 →
  BaseFormat.bytes fmt = Raise ValueError.
Proof.
  intros Hfmt Hw.
  destruct (hex_of_encode fmt (S (2 * k)) Hfmt) as (v & Hv & _ & Hhex);
    [lia | lia |].
  unfold BaseFormat.bytes. rewrite Hhex, bind_ok.
  rewrite (fromhex_odd k); [done | apply hexn_length | apply hexn_digits].
Qed.

(** The theorem above on a format of four bits. *)
Lemma half_a_byte_has_no_bytes_witness :
  let fmt := BaseFormat.mk 4 [("opcode", field_at "opcode" 0 3 5)] in
  BaseFormat.placeable fmt
  ∧ BaseFormat.hex fmt = Ok ["5"%char]
  ∧ BaseFormat.bytes fmt = Raise ValueError.
Proof.
  intros fmt.
  assert (BaseFormat.placeable fmt) as Hfmt.
  { split; [done|]. split.
    - apply Forall_cons. split; [|constructor].
      unfold Field.built. simpl. repeat split; lia.
    - apply Forall_cons. split; [done | constructor]. }
  split; [done|]. split; [reflexivity|].
  exact (half_a_byte_has_no_bytes fmt 0 Hfmt eq_refl).
Defined.

(** ** The domain of a field *)

Lemma land_mask_small v n : 0 ≤ n → 0 ≤ v < 2 ^ n → Z.land v (Z.ones n) = v.
Proof.
  intros Hn Hv. rewrite Z.land_ones by done. by apply Z.mod_small.
Qed.

(** The values that a field in random mode offers to the solver, when no
    list was given, fit its bits: each is placed by [get_pos_value] as it
    is, shifted to the start of the field, in any format that has the bits
    of the field.  Up to sixteen bits the domain is every value of the field
    once, in ascending order. *)
Theorem domain_fits_the_field sample f :
  Field.built f →
  0 ≤ Field.start f →
  Field._rand_mode f = true →
  Field.no_values f →
  Forall (λ v, 0 ≤ v ≤ Z.shiftl 1 (Field._size f) - 1) sample →
  ∃ d, Field.domain sample f = Ok d
       ∧ (Field._size f ≤ 16 → d = seqZ 0 (2 ^ Field._size f))
       ∧ ∀ v bits, v ∈ d → Field.end_ f < bits →
           Field.get_pos_value (Field.set_value v f) bits
           = Ok (Z.shiftl v (Field.start f)).
Proof.
  intros (Hsize & Hend & Hmask) Hstart Hrand Hvalues Hsample.
  assert (∀ v bits, 0 ≤ v < 2 ^ Field._size f → Field.end_ f < bits →
            Field.get_pos_value (Field.set_value v f) bits
            = Ok (Z.shiftl v (Field.start f))) as Hplace.
  { intros v bits Hv Hbits. unfold Field.get_pos_value, shl. simpl.
    rewrite (proj2 (Z.ltb_ge _ _)) by lia. simpl.
    rewrite (proj2 (Z.ltb_ge _ _)) by lia. simpl.
    rewrite Hmask, land_mask_small by done.
    rewrite Z.shiftl_1_l. change (2 ^ bits - 1) with (Z.pred (2 ^ bits)).
    rewrite <- Z.ones_equiv. f_equal.
    apply land_mask_small; [lia|].
    rewrite Z.shiftl_mul_pow2 by done. split; [lia|].
    apply Z.lt_le_trans with (2 ^ Field._size f * 2 ^ Field.start f); [nia|].
    rewrite <- Z.pow_add_r by lia.
    apply Z.pow_le_mono_r; lia. }
  unfold Field.domain. rewrite Hrand.
  assert (match Field.values f with
          | Some (v :: vs) => Ok (v :: vs)
          | _ => if 16 <? Field._size f then Ok sample
                 else one ← shl 1 (Field._size f); Ok (seqZ 0 one)
          end
          = if 16 <? Field._size f then Ok sample
            else one ← shl 1 (Field._size f); Ok (seqZ 0 one)) as ->.
  { by destruct Hvalues as [-> | ->]. }
  rewrite Z.shiftl_1_l in Hsample.
  destruct (16 <? Field._size f) eqn:Hbig.
  - apply Z.ltb_lt in Hbig. exists sample. split; [done|]. split; [lia|].
    intros v bits Hv Hbits. apply Hplace; [|done].
    apply (proj1 (Forall_forall _ _) Hsample) in Hv. lia.
  - apply Z.ltb_ge in Hbig. unfold shl.
    rewrite (proj2 (Z.ltb_ge _ _)) by lia. simpl. rewrite Z.shiftl_1_l.
    eexists. split; [done|]. split; [done|].
    intros v bits Hv Hbits. apply Hplace; [|done].
    apply elem_of_seqZ in Hv. lia.
Qed.

(** The theorem above on the opcode of the example: sixteen values, and the
    value 9 is placed as 9. *)
Lemma domain_fits_the_field_witness :
  let f := field_at "opcode" 0 3 0 in
  Field.built f ∧ Field.no_values f
  ∧ Field.domain [] f = Ok (seqZ 0 16)
  ∧ Field.get_pos_value (Field.set_value 9 f) 8 = Ok 9.
Proof.
  intros f.
  assert (Field.built f) as Hb by (unfold Field.built; simpl; repeat split; lia).
  assert (Field.no_values f) as Hn by (by left).
  destruct (domain_fits_the_field [] f Hb ltac:(simpl; lia) eq_refl Hn
              ltac:(constructor)) as (d & Hd & Hall & Hplace).
  split; [done|]. split; [done|].
  assert (d = seqZ 0 16) as -> by (apply Hall; simpl; lia).
  split; [done|].
  apply (Hplace 9 8); [|simpl; lia].
  apply elem_of_seqZ. lia.
Defined.

(** * The summary *)

Lemma status_of_known ret : known_status (status_of ret).
Proof.
  unfold known_status, status_of. repeat case_match; auto.
Qed.

Lemma worker_step_known s l ex :
  writes_known l →
  Forall (λ r, known_status (Status r)) (results s) →
  let '(s', l', e) := worker_step s l ex in
  writes_known l' ∧ Forall (λ r, known_status (Status r)) (results s').
Proof.
  intros Hl Hs. destruct l as [p rg tg tc]. unfold worker_step.
  unfold writes_known in *. simpl in *.
  destruct p; simpl; repeat case_match; simplify_eq; simpl;
    (split; [intros t' line' Heq; simplify_eq; eauto using status_of_known|]);
    try done.
  all: apply Forall_app; split; [done|].
  all: apply Forall_cons; split; [by eapply Hl | constructor].
Qed.

Lemma statuses_known_step c a : statuses_known c → statuses_known (step c a).
Proof.
  intros [Hres Hws]. destruct a as [j ex| |d|j]; simpl; [|done|done|].
  - destruct (ws c !! j) as [lj|] eqn:Hj; [|done].
    pose proof (worker_step_known (sh c) lj ex
                  (Forall_lookup_1 _ _ _ _ Hws Hj) Hres) as Hstep.
    destruct (worker_step (sh c) lj ex) as [[s l'] e].
    destruct Hstep as [Hl' Hs]. split; [done|]. simpl.
    by apply Forall_insert.
  - destruct (ws c !! j) as [lj|] eqn:Hj; [|done].
    split; [done|]. simpl. apply Forall_insert; [done|].
    pose proof (Forall_lookup_1 _ _ _ _ Hws Hj) as Hl.
    destruct lj as [p rg tg tc]. unfold writes_known, worker_throw in *.
    simpl in *. intros t line.
    destruct p; simpl; try done; try (by apply Hl).
    + by destruct (INTERRUPT (sh c)).
    + by destruct (wants_retry ret t0 (INTERRUPT (sh c))).
Qed.

Lemma pool_statuses s jobs sched :
  results s = [] →
  Forall (λ r, known_status (Status r)) (results (sh (exec sched (pool s jobs)))).
Proof.
  intros Hnil.
  assert (statuses_known (exec sched (pool s jobs))) as [H _]; [|done].
  apply exec_invariant; [intros; by apply statuses_known_step|].
  split; simpl; [by rewrite Hnil|].
  apply Forall_forall. intros l Hl. apply elem_of_replicate in Hl as [-> _].
  by intros t line.
Qed.

Lemma known_add_up (rs : list row) :
  Forall (λ r, known_status (Status r)) rs →
  length rs
  = (with_status "Passed" rs + with_status "Failed" rs
     + with_status "Killed" rs)%nat.
Proof.
  unfold with_status. induction 1 as [|r rs Hr _ IH]; [done|].
  rewrite !filter_cons. simpl length at 1. rewrite IH.
  destruct Hr as [Hr | [Hr | Hr]]; rewrite Hr;
    repeat case_decide; simplify_eq; simpl; lia.
Qed.

Lemma rows_of_suite_length g (rs : list row) :
  length (rows_of_suite g rs)
  = length (filter (λ n, suite_of n = g) (Test <$> rs)).
Proof.
  unfold rows_of_suite. induction rs as [|r rs IH]; [done|].
  rewrite fmap_cons, !filter_cons. case_decide; simpl; by rewrite IH.
Qed.

Lemma cases_of_suite_length g (q : list test) :
  length (cases_of_suite g q)
  = length (filter (λ n, suite_of n = g) (test_name <$> q)).
Proof.
  unfold cases_of_suite. induction q as [|t q IH]; [done|].
  rewrite fmap_cons, !filter_cons. case_decide; simpl; by rewrite IH.
Qed.

(** For every run and every suite with a line in the summary: [Total] is
    the sum of [Passed], [Failed] and [Killed], it is at least one, and it
    does not exceed the number of discovered cases of the suite. *)
Theorem summary_adds_up q dir jobs sched g sm :
  let c := exec sched (pool (start_store q dir) jobs) in
  summary_row (results (sh c)) g = Some sm →
  Summary.Total sm
  = (Summary.Passed sm + Summary.Failed sm + Summary.Killed sm)%nat
  ∧ (0 < Summary.Total sm ≤ length (cases_of_suite g q))%nat.
Proof.
  intros c Hsm. unfold summary_row in Hsm.
  assert (Forall (λ r, known_status (Status r))
                 (rows_of_suite g (results (sh c)))) as Hknown.
  { apply Forall_forall. intros r Hr.
    apply list_elem_of_filter in Hr as [_ Hr].
    pose proof (pool_statuses (start_store q dir) jobs sched eq_refl) as Hall.
    by apply (proj1 (Forall_forall _ _) Hall). }
  assert (length (rows_of_suite g (results (sh c)))
          ≤ length (cases_of_suite g q))%nat as Hle.
  { destruct (pool_cases (start_store q dir) jobs sched eq_refl) as [Hperm _].
    fold c in Hperm. simpl in Hperm.
    rewrite rows_of_suite_length, cases_of_suite_length.
    rewrite Hperm, filter_app, length_app. lia. }
  destruct (rows_of_suite g (results (sh c))) as [|r rs] eqn:Hrs; [done|].
  injection Hsm as <-. unfold agg.
  split; [exact (known_add_up (r :: rs) Hknown)|]. simpl in *. lia.
Qed.

(** The theorem above on one worker and one case that passes. *)
Lemma summary_adds_up_witness :
  let c := exec run_to_the_end (pool (start_store [case "A.t1" 0] "/out") 1) in
  summary_row (results (sh c)) "A" = Some (Summary.mk 1 1 0 0 0)
  ∧ (0 < 1 ≤ length (cases_of_suite "A" [case "A.t1" 0]))%nat.
Proof.
  intros c.
  assert (summary_row (results (sh c)) "A" = Some (Summary.mk 1 1 0 0 0)) as Hsm
    by (vm_compute; reflexivity).
  split; [done|].
  exact (proj2 (summary_adds_up [case "A.t1" 0] "/out" 1 run_to_the_end "A"
                  (Summary.mk 1 1 0 0 0) Hsm)).
Defined.

(** For every run, the table of errors of the report has every line of
    [self.results] that is not a pass: the test of line 356 leaves the table
    out only when there is none. *)
Theorem failures_are_all_listed q dir jobs sched :
  let c := exec sched (pool (start_store q dir) jobs) in
  error_rows (results (sh c))
  = filter (λ r, Status r ≠ "Passed") (results (sh c)).
Proof.
  intros c. unfold error_rows. case_bool_decide as Hin; [done|].
  pose proof (pool_statuses (start_store q dir) jobs sched eq_refl) as Hknown.
  fold c in Hknown. symmetry.
  induction Hknown as [|r rs Hr _ IH]; [done|].
  rewrite filter_cons. rewrite fmap_cons in Hin.
  destruct Hr as [Hr | [Hr | Hr]].
  - rewrite decide_False by (by intros []).
    apply IH. intros [H|H]; apply Hin; [left|right]; by right.
  - exfalso. apply Hin. left. rewrite Hr. by left.
  - exfalso. apply Hin. right. rewrite Hr. by left.
Qed.
